(** * Shiori: the AI plan / recommendation pipeline of
      [backend/src/services/aiService.ts]

    A shallow embedding of the service module and of the JavaScript
    built-ins it calls (strings of UTF-16 code units, regular expressions
    with backtracking, [Math.round] on doubles, [new Date] on date-only ISO
    strings), of the two places of the front end that stand around it
    (the date checks of [TravelForm.tsx], the recommendation panel of
    [BudgetOverview.tsx]), followed by the properties of the pipeline. *)

From Stdlib Require Import Ascii String.
From Stdlib Require Import Bool Arith ZArith NArith QArith Lia Lqa.
From Stdlib Require Import PrimFloat FloatOps SpecFloat FloatAxioms Uint63.
From Stdlib Require Import List.
Import ListNotations.
Open Scope list_scope.

Set Implicit Arguments.
Set Warnings "-register-all,-inexact-float".

(* ================================================================= *)
(** ** JavaScript strings *)

Module JS.

(** A JS string is a sequence of UTF-16 code units. *)
Definition jsstring := list N.

(** An ASCII literal of the source, as code units. *)
Definition lit (s : string) : jsstring :=
  map N_of_ascii (list_ascii_of_string s).

(** The characters of the regular expression class [\s]: WhiteSpace and
    LineTerminator of ECMA-262. *)
Definition is_space (c : N) : bool :=
  ((9 <=? c) && (c <=? 13) || (c =? 32) || (c =? 0xA0) || (c =? 0x1680)
   || (0x2000 <=? c) && (c <=? 0x200A)
   || (c =? 0x2028) || (c =? 0x2029) || (c =? 0x202F) || (c =? 0x205F)
   || (c =? 0x3000) || (c =? 0xFEFF))%N.

(** LineTerminator: what [.] refuses without the [s] flag. *)
Definition is_line_terminator (c : N) : bool :=
  ((c =? 10) || (c =? 13) || (c =? 0x2028) || (c =? 0x2029))%N.

(** [s.replace(/\s/g, '')] *)
Definition strip_ws (s : jsstring) : jsstring :=
  filter (fun c => negb (is_space c)) s.

(** [s.startsWith(p)] *)
Fixpoint startsWith (s p : jsstring) {struct p} : bool :=
  match p, s with
  | [], _ => true
  | a :: p', b :: s' => (a =? b)%N && startsWith s' p'
  | _ :: _, [] => false
  end.

(** [s.includes(sub)] *)
Fixpoint includes (s sub : jsstring) : bool :=
  startsWith s sub ||
  match s with
  | [] => false
  | _ :: s' => includes s' sub
  end.

Definition jsstring_eqb (a b : jsstring) : bool :=
  (length a =? length b)%nat && startsWith a b.

(** [String(i)] for an array index: the decimal digits of [i]. *)
Fixpoint digits (fuel : nat) (n : N) (acc : jsstring) : jsstring :=
  match fuel with
  | O => acc
  | S fuel' =>
      let acc' := (48 + n mod 10)%N :: acc in
      if (n <? 10)%N then acc' else digits fuel' (n / 10)%N acc'
  end.

Definition index_key (i : nat) : jsstring :=
  digits (S i) (N.of_nat i) [].

(* ----------------------------------------------------------------- *)
(** ** JavaScript values, as [JSON.parse] and object literals build them *)

Inductive JSValue : Type :=
| JUndefined
| JNull
| JBool (b : bool)
| JNum (x : float)
| JStr (s : jsstring)
| JArr (elems : list JSValue)
| JObj (fields : list (jsstring * JSValue)).

(** ToBoolean *)
Definition truthy (v : JSValue) : bool :=
  match v with
  | JUndefined | JNull => false
  | JBool b => b
  | JNum x => negb (PrimFloat.is_zero x || PrimFloat.is_nan x)
  | JStr s => negb (Nat.eqb (length s) 0)
  | JArr _ | JObj _ => true
  end.

(** [a || b] *)
Definition js_or (a b : JSValue) : JSValue := if truthy a then a else b.

Fixpoint lookup (k : jsstring) (fields : list (jsstring * JSValue))
  : option JSValue :=
  match fields with
  | [] => None
  | (k', v) :: rest => if jsstring_eqb k' k then Some v else lookup k rest
  end.

(** Assignment of one property in an object literal: an existing key keeps
    its place, a new key goes last. *)
Fixpoint set_prop (k : jsstring) (v : JSValue)
  (fields : list (jsstring * JSValue)) : list (jsstring * JSValue) :=
  match fields with
  | [] => [(k, v)]
  | (k', v') :: rest =>
      if jsstring_eqb k' k then (k, v) :: rest
      else (k', v') :: set_prop k v rest
  end.

Fixpoint indexed {A} (f : A -> JSValue) (i : nat) (l : list A)
  : list (jsstring * JSValue) :=
  match l with
  | [] => []
  | x :: l' => (index_key i, f x) :: indexed f (S i) l'
  end.

(** The own enumerable properties of a value, in order: what the spread
    [{...v}] copies.  An array or a string contributes its indices (its
    [length] is not enumerable), the other primitives nothing. *)
Definition own_fields (v : JSValue) : list (jsstring * JSValue) :=
  match v with
  | JObj fields => fields
  | JArr elems => indexed (fun x => x) 0 elems
  | JStr s => indexed (fun c => JStr [c]) 0 s
  | _ => []
  end.

(** What a script can throw: an [Error] instance with its [message], or
    any other value. *)
Inductive thrown : Type :=
| ErrorObj (message : jsstring)
| Thrown (v : JSValue).

(** The completion of an evaluation: a value, or an abrupt [throw]. *)
Inductive completion (A : Type) : Type :=
| Return (a : A)
| Throw (e : thrown).
Arguments Return {A} a.
Arguments Throw {A} e.

Definition bind {A B} (c : completion A) (f : A -> completion B)
  : completion B :=
  match c with
  | Return a => f a
  | Throw e => Throw e
  end.

(** [try { body } catch (error) { handler }] *)
Definition try_catch {A} (body : completion A) (handler : thrown -> completion A)
  : completion A :=
  match body with
  | Return a => Return a
  | Throw e => handler e
  end.

(** [error instanceof Error ? error.message : fallback] *)
Definition message_or (fallback : jsstring) (e : thrown) : jsstring :=
  match e with
  | ErrorObj m => m
  | Thrown _ => fallback
  end.

End JS.

Declare Scope js_scope.
Delimit Scope js_scope with js.
Notation "x <- c ;; k" := (JS.bind c (fun x => k))
  (at level 61, c at next level, right associativity) : js_scope.

(* ================================================================= *)
(** ** Regular expressions: the backtracking matcher of ECMA-262 *)

Module Regex.
Import JS.

(** Character classes of the patterns of the service. *)
Inductive cclass : Type :=
| CAny          (** [[\s\S]], and [.] under the [s] flag *)
| CDot          (** [.] without the [s] flag *)
| CSpace.       (** [\s] *)

Definition in_class (p : cclass) (c : N) : bool :=
  match p with
  | CAny => true
  | CDot => negb (is_line_terminator c)
  | CSpace => is_space c
  end.

(** The patterns.  Quantifiers stand on character classes and on one
    optional group, which is all the service writes. *)
Inductive regex : Type :=
| Chr (c : N)                 (** a literal code unit *)
| Cls (p : cclass)
| Cat (r1 r2 : regex)
| Alt (r1 r2 : regex)         (** [r1|r2] *)
| Star (p : cclass)           (** [p*], greedy *)
| LazyStar (p : cclass)       (** [p*?] *)
| Opt (r : regex)             (** [r?] *)
| Group (i : nat) (r : regex) (** the [i]-th capturing parentheses *)
| Eos                         (** [$] without the [m] flag *)
| Eps.

Fixpoint seq (rs : list regex) : regex :=
  match rs with
  | [] => Eps
  | [r] => r
  | r :: rs' => Cat r (seq rs')
  end.

Fixpoint alts (r : regex) (rs : list regex) : regex :=
  match rs with
  | [] => r
  | r' :: rs' => Alt r (alts r' rs')
  end.

(** A literal word, one [Chr] per code unit. *)
Definition word (w : jsstring) : regex := seq (map Chr w).

(** Canonicalize of ECMA-262 for the [i] flag without [u], for patterns
    written in ASCII as those of the service are: an ASCII letter and its
    other case compare equal, and a code unit outside ASCII never compares
    equal to an ASCII one, so only ASCII letters need folding. *)
Definition canon (icase : bool) (c : N) : N :=
  if icase && (97 <=? c)%N && (c <=? 122)%N then (c - 32)%N else c.

Definition chr_eq (icase : bool) (c x : N) : bool :=
  (canon icase c =? canon icase x)%N.

Definition captures := list (nat * jsstring).

Section Matcher.
Variable A : Type.
Variable icase : bool.

(** A continuation: the rest of the pattern, run on the rest of the
    input with the captures so far. *)
Definition cont := jsstring -> captures -> option A.

(** [p*]: as many characters as possible, giving back one at a time. *)
Fixpoint star_greedy (p : cclass) (k : cont) (s : jsstring) (cs : captures)
  : option A :=
  match s with
  | x :: s' =>
      if in_class p x then
        match star_greedy p k s' cs with
        | Some a => Some a
        | None => k s cs
        end
      else k s cs
  | [] => k s cs
  end.

(** [p*?]: as few characters as possible, taking one more at a time. *)
Fixpoint star_lazy (p : cclass) (k : cont) (s : jsstring) (cs : captures)
  : option A :=
  match k s cs with
  | Some a => Some a
  | None =>
      match s with
      | x :: s' => if in_class p x then star_lazy p k s' cs else None
      | [] => None
      end
  end.

Fixpoint run (r : regex) (k : cont) (s : jsstring) (cs : captures)
  : option A :=
  match r with
  | Chr c =>
      match s with
      | x :: s' => if chr_eq icase c x then k s' cs else None
      | [] => None
      end
  | Cls p =>
      match s with
      | x :: s' => if in_class p x then k s' cs else None
      | [] => None
      end
  | Cat r1 r2 => run r1 (run r2 k) s cs
  | Alt r1 r2 =>
      match run r1 k s cs with
      | Some a => Some a
      | None => run r2 k s cs
      end
  | Star p => star_greedy p k s cs
  | LazyStar p => star_lazy p k s cs
  | Opt r' =>
      match run r' k s cs with
      | Some a => Some a
      | None => k s cs
      end
  | Group i r' =>
      run r' (fun s' cs' =>
                k s' ((i, firstn (length s - length s') s) :: cs')) s cs
  | Eos => match s with [] => k s cs | _ :: _ => None end
  | Eps => k s cs
  end.
End Matcher.

(** The result array of a match: element 0 (the matched text) and the
    captures. *)
Record match_result : Type := MatchResult {
  matched : jsstring;
  groups : captures
}.

Fixpoint capture (i : nat) (cs : captures) : option jsstring :=
  match cs with
  | [] => None
  | (j, g) :: cs' => if Nat.eqb j i then Some g else capture i cs'
  end.

(** The match of [r] that starts at the head of [s], if any. *)
Definition match_here (icase : bool) (r : regex) (s : jsstring)
  : option match_result :=
  run icase r
    (fun s' cs => Some (MatchResult (firstn (length s - length s') s) cs))
    s [].

(** [RegExp.prototype.exec] without the [g] and [y] flags, which is what
    [s.match(r)] calls: the first start index, from the left, at which the
    pattern matches. *)
Fixpoint exec (icase : bool) (r : regex) (s : jsstring) : option match_result :=
  match match_here icase r s with
  | Some m => Some m
  | None =>
      match s with
      | [] => None
      | _ :: s' => exec icase r s'
      end
  end.

(** [r.test(s)] *)
Definition test (icase : bool) (r : regex) (s : jsstring) : bool :=
  match exec icase r s with
  | Some _ => true
  | None => false
  end.

(** [m[i]] for [i > 0]: [undefined] (here [None]) when the pattern has no
    such group or the group took no part in the match. *)
Definition group (i : nat) (m : match_result) : option jsstring :=
  capture i (groups m).

End Regex.

(* ================================================================= *)
(** ** Numbers: [Math.round] on IEEE doubles *)

Module JSMath.

(** The mantissa of a finite double with its sign. *)
Definition signed (s : bool) (m : positive) : Z :=
  if s then Z.neg m else Z.pos m.

(** [floor (M * 2^e + 1/2)] for [e < 0], in exact integer arithmetic. *)
Definition half_up (M e : Z) : Z :=
  ((2 * M + 2 ^ (- e)) / 2 ^ (1 - e))%Z.

(** The exact value of a finite double, as a rational: the mantissa
    times two to the exponent. *)
Definition SF_value (x : spec_float) : option Q :=
  match x with
  | S754_zero _ => Some 0%Q
  | S754_finite s m e =>
      if (0 <=? e)%Z then Some (inject_Z (signed s m * 2 ^ e))
      else Some (Qmake (signed s m) (Z.to_pos (2 ^ (- e))))
  | S754_infinity _ | S754_nan => None
  end.

Definition number_value (x : float) : option Q := SF_value (Prim2SF x).

(** The integer [Math.round] denotes on a finite double: the nearest
    integer, a tie going towards plus infinity. *)
Definition round_int (x : float) : option Z :=
  match Prim2SF x with
  | S754_zero _ => Some 0%Z
  | S754_finite s m e =>
      if (0 <=? e)%Z then Some (signed s m * 2 ^ e)%Z
      else Some (half_up (signed s m) e)
  | S754_infinity _ | S754_nan => None
  end.

(** The double that holds an integer below 2^53 in magnitude. *)
Definition of_Z (n : Z) : float :=
  if (n <? 0)%Z then PrimFloat.opp (PrimFloat.of_uint63 (Uint63.of_Z (- n)))
  else PrimFloat.of_uint63 (Uint63.of_Z n).

(** [Math.round(x)]: NaN, the infinities, the zeros and the doubles that
    are integers already are returned as they are; a result of zero keeps
    the sign of [x]. *)
Definition Math_round (x : float) : float :=
  match Prim2SF x with
  | S754_finite s m e =>
      if (0 <=? e)%Z then x
      else
        let n := half_up (signed s m) e in
        if (n =? 0)%Z then (if s then PrimFloat.neg_zero else PrimFloat.zero)
        else of_Z n
  | _ => x
  end.

End JSMath.

(* ================================================================= *)
(** ** Dates: [new Date(string).getTime()] on date-only ISO strings *)

Module JSDate.
Import JS.

Open Scope Z_scope.

Record date : Type := Date { year : Z; month : Z; day : Z }.

(** DaysInYear(y) = 366 *)
Definition leap (y : Z) : bool :=
  (y mod 4 =? 0) && (negb (y mod 100 =? 0) || (y mod 400 =? 0)).

Definition days_in_month (y m : Z) : Z :=
  match m with
  | 2 => if leap y then 29 else 28
  | 4 | 6 | 9 | 11 => 30
  | _ => 31
  end.

(** DayFromYear(y) of ECMA-262: the day number of 1 January. *)
Definition DayFromYear (y : Z) : Z :=
  365 * (y - 1970) + (y - 1969) / 4 - (y - 1901) / 100 + (y - 1601) / 400.

(** The day within the year at which month [m] (1 to 12) starts. *)
Definition month_start (y m : Z) : Z :=
  let l := if leap y then 1 else 0 in
  match m with
  | 1 => 0
  | 2 => 31
  | 3 => 59 + l
  | 4 => 90 + l
  | 5 => 120 + l
  | 6 => 151 + l
  | 7 => 181 + l
  | 8 => 212 + l
  | 9 => 243 + l
  | 10 => 273 + l
  | 11 => 304 + l
  | _ => 334 + l
  end.

(** MakeDay(year, month, date) for a date of the calendar. *)
Definition MakeDay (d : date) : Z :=
  DayFromYear (year d) + month_start (year d) (month d) + day d - 1.

Definition msPerDay : Z := 86400000.

(** The time value of midnight UTC of [d]. *)
Definition time_value (d : date) : Z := MakeDay d * msPerDay.

Definition valid_date (d : date) : bool :=
  (1 <=? month d) && (month d <=? 12) &&
  (1 <=? day d) && (day d <=? days_in_month (year d) (month d)).

Definition digit (c : N) : option Z :=
  if ((48 <=? c) && (c <=? 57))%N then Some (Z.of_N c - 48) else None.

Fixpoint number (cs : list N) (acc : Z) : option Z :=
  match cs with
  | [] => Some acc
  | c :: cs' =>
      match digit c with
      | Some v => number cs' (10 * acc + v)
      | None => None
      end
  end.

Definition checked (y m d : option Z) : option date :=
  match y, m, d with
  | Some y', Some m', Some d' =>
      let dt := Date y' m' d' in
      if valid_date dt then Some dt else None
  | _, _, _ => None
  end.

(** The date-only forms of the Date Time String Format, [YYYY],
    [YYYY-MM] and [YYYY-MM-DD], which ECMA-262 reads as UTC.  Strings of
    another form (with a time, or in an implementation-defined format)
    and dates that are not of the calendar are outside this model and
    read as [None]. *)
Definition parse_date_only (s : jsstring) : option date :=
  match s with
  | [y1; y2; y3; y4] =>
      checked (number [y1; y2; y3; y4] 0) (Some 1) (Some 1)
  | [y1; y2; y3; y4; 45%N; m1; m2] =>
      checked (number [y1; y2; y3; y4] 0) (number [m1; m2] 0) (Some 1)
  | [y1; y2; y3; y4; 45%N; m1; m2; 45%N; d1; d2] =>
      checked (number [y1; y2; y3; y4] 0) (number [m1; m2] 0)
              (number [d1; d2] 0)
  | _ => None
  end.

(** [new Date(s).getTime()]; [None] is NaN. *)
Definition getTime (s : jsstring) : option Z :=
  option_map time_value (parse_date_only s).

(** [Math.ceil(a / b)] for integers [a] and [b > 0] whose quotient a
    double holds exactly. *)
Definition ceil_div (a b : Z) : Z := - ((- a) / b).

(** The next day of the calendar. *)
Definition next_day (d : date) : date :=
  if day d <? days_in_month (year d) (month d)
  then Date (year d) (month d) (day d + 1)
  else if month d <? 12 then Date (year d) (month d + 1) 1
  else Date (year d + 1) 1 1.

End JSDate.

(* ================================================================= *)
(** ** [String.prototype.split] with a regular expression *)

Module JSSplit.
Import JS Regex.

(** The loop of [split] from the position where [s] starts.  [piece]
    is the text since the end of the last separator, and [skip] counts
    the characters of a separator still to pass.  At each position the
    pattern is tried there and only there; a match that is empty where the
    piece is empty too does not split. *)
Fixpoint split_from (r : regex) (s : jsstring) (skip : nat) (piece : jsstring)
  : list jsstring :=
  match s with
  | [] => [piece]
  | c :: s' =>
      match skip with
      | S n => split_from r s' n piece
      | O =>
          match match_here false r s with
          | Some m =>
              match length (matched m), piece with
              | O, [] => split_from r s' 0 [c]
              | O, _ :: _ => piece :: split_from r s' 0 [c]
              | S n, _ => piece :: split_from r s' n []
              end
          | None => split_from r s' 0 (piece ++ [c])
          end
      end
  end.

(** [s.split(r)] without a limit, for a pattern without capturing groups:
    the empty string splits into nothing when the pattern matches it, and
    into itself otherwise. *)
Definition String_split (s : jsstring) (r : regex) : list jsstring :=
  match s with
  | [] =>
      match match_here false r [] with
      | Some _ => []
      | None => [[]]
      end
  | _ :: _ => split_from r s 0 []
  end.

End JSSplit.

(* ================================================================= *)
(** ** The service module [aiService.ts] *)

Module AiService.
Import JS Regex JSMath JSDate JSSplit.

Open Scope string_scope.
Open Scope list_scope.
Open Scope js_scope.

(** The argument of [generateTravelPlan]. *)
Module TravelData.
Record t : Type := Make {
  destination : jsstring;
  startDate : jsstring;
  endDate : jsstring;
  memberCount : float;
  budget : float;
  interests : list jsstring;
  travelStyle : jsstring;
  description : jsstring
}.
End TravelData.

(** The argument of [generateRecommendations]; an optional property that
    is absent is [None]. *)
Module Prefs.
Record t : Type := Make {
  destination : jsstring;
  region : option jsstring;
  interests : list jsstring;
  budget : jsstring;
  travelStyle : jsstring;
  groupSize : float;
  duration : float;
  customNote : option jsstring
}.
End Prefs.

(** The client object of the SDK. *)
Record GoogleGenerativeAI : Type := { apiKey : jsstring }.

(** The state of the process: the environment variable and the
    module-level [let genAI]. *)
Record Process : Type := {
  GEMINI_API_KEY : option jsstring;
  genAI : option GoogleGenerativeAI
}.

(** The values the plan prompt interpolates into its fixed template;
    [None] for [days] is NaN. *)
Record TravelPrompt : Type := {
  tp_destination : jsstring;
  tp_startDate : jsstring;
  tp_endDate : jsstring;
  tp_nights : option Z;
  tp_days : option Z;
  tp_memberCount : float;
  tp_budget : float;
  tp_interests : list jsstring;
  tp_travelStyle : jsstring;
  tp_description : jsstring
}.

Inductive prompt : Type :=
| PlanPrompt (p : TravelPrompt)
| RecommendationPrompt (prefs : Prefs.t).

(** What the module takes from outside: the hosted model
    ([model.generateContent(prompt)], [result.response] and
    [response.text()] as one step), [JSON.parse], and the text of the
    engine's TypeError for a value. *)
Record Runtime : Type := {
  generateContent : GoogleGenerativeAI -> prompt -> completion jsstring;
  JSON_parse : jsstring -> completion JSValue;
  TypeError_message : JSValue -> jsstring
}.

(* Literals of the source that are not ASCII, as UTF-16 code units. *)
Definition s_key_not_defined : jsstring := lit "GEMINI_API_KEY is not defined".
(* 特になし *)
Definition s_none_specified : jsstring := [0x7279; 0x306B; 0x306A; 0x3057]%N.
(* 到着 *)
Definition s_arrival : jsstring := [0x5230; 0x7740]%N.
(* 空港・駅から目的地への移動 *)
Definition s_transfer : jsstring :=
  [0x7A7A; 0x6E2F; 0x30FB; 0x99C5; 0x304B; 0x3089; 0x76EE; 0x7684; 0x5730;
   0x3078; 0x306E; 0x79FB; 0x52D5]%N.
(* おすすめ観光スポット *)
Definition s_recommended_spot : jsstring :=
  [0x304A; 0x3059; 0x3059; 0x3081; 0x89B3; 0x5149; 0x30B9; 0x30DD; 0x30C3;
   0x30C8]%N.
(* の名所 *)
Definition s_sights : jsstring := [0x306E; 0x540D; 0x6240]%N.
(* 、 *)
Definition s_comma : jsstring := [0x3001]%N.
(* に基づいたおすすめスポット *)
Definition s_based_on : jsstring :=
  [0x306B; 0x57FA; 0x3065; 0x3044; 0x305F; 0x304A; 0x3059; 0x3059; 0x3081;
   0x30B9; 0x30DD; 0x30C3; 0x30C8]%N.
(* の人気スポット *)
Definition s_popular : jsstring :=
  [0x306E; 0x4EBA; 0x6C17; 0x30B9; 0x30DD; 0x30C3; 0x30C8]%N.
(* 観光地 *)
Definition s_tourist_site : jsstring := [0x89B3; 0x5149; 0x5730]%N.
(* AIが選んだおすすめの場所 *)
Definition s_ai_choice : jsstring :=
  [0x0041; 0x0049; 0x304C; 0x9078; 0x3093; 0x3060; 0x304A; 0x3059; 0x3059;
   0x3081; 0x306E; 0x5834; 0x6240]%N.
(* の必見スポット *)
Definition s_must_visit : jsstring :=
  [0x306E; 0x5FC5; 0x898B; 0x30B9; 0x30DD; 0x30C3; 0x30C8]%N.
(* の名物グルメ *)
Definition s_local_food : jsstring :=
  [0x306E; 0x540D; 0x7269; 0x30B0; 0x30EB; 0x30E1]%N.
(* 現地の天気をチェックしましょう *)
Definition s_tip_weather : jsstring :=
  [0x73FE; 0x5730; 0x306E; 0x5929; 0x6C17; 0x3092; 0x30C1; 0x30A7; 0x30C3;
   0x30AF; 0x3057; 0x307E; 0x3057; 0x3087; 0x3046]%N.
(* 公共交通機関の時刻表を確認しましょう *)
Definition s_tip_timetable : jsstring :=
  [0x516C; 0x5171; 0x4EA4; 0x901A; 0x6A5F; 0x95A2; 0x306E; 0x6642; 0x523B;
   0x8868; 0x3092; 0x78BA; 0x8A8D; 0x3057; 0x307E; 0x3057; 0x3087; 0x3046]%N.
(* AIプラン生成に失敗しました *)
Definition s_plan_failed : jsstring :=
  [0x0041; 0x0049; 0x30D7; 0x30E9; 0x30F3; 0x751F; 0x6210; 0x306B; 0x5931;
   0x6557; 0x3057; 0x307E; 0x3057; 0x305F]%N.
(* AIレスポンスが配列形式ではありません *)
Definition s_not_an_array : jsstring :=
  [0x0041; 0x0049; 0x30EC; 0x30B9; 0x30DD; 0x30F3; 0x30B9; 0x304C; 0x914D;
   0x5217; 0x5F62; 0x5F0F; 0x3067; 0x306F; 0x3042; 0x308A; 0x307E; 0x305B;
   0x3093]%N.
(* AIから有効な推薦リストが取得できませんでした。目的地や条件を見直してください。 *)
Definition s_no_valid_list : jsstring :=
  [0x0041; 0x0049; 0x304B; 0x3089; 0x6709; 0x52B9; 0x306A; 0x63A8; 0x85A6;
   0x30EA; 0x30B9; 0x30C8; 0x304C; 0x53D6; 0x5F97; 0x3067; 0x304D; 0x307E;
   0x305B; 0x3093; 0x3067; 0x3057; 0x305F; 0x3002; 0x76EE; 0x7684; 0x5730;
   0x3084; 0x6761; 0x4EF6; 0x3092; 0x898B; 0x76F4; 0x3057; 0x3066; 0x304F;
   0x3060; 0x3055; 0x3044; 0x3002]%N.
(* AI推薦生成に失敗しました *)
Definition s_recs_failed : jsstring :=
  [0x0041; 0x0049; 0x63A8; 0x85A6; 0x751F; 0x6210; 0x306B; 0x5931; 0x6557;
   0x3057; 0x307E; 0x3057; 0x305F]%N.

Definition placeholder_image : jsstring :=
  lit "https://images.pexels.com/photos/1008155/pexels-photo-1008155.jpeg?auto=compress&w=600".

(** [getGenAIClient]: the client is built on the first call, from the
    environment variable, and kept; [!apiKey] holds for an absent and for
    an empty key. *)
Definition getGenAIClient (p : Process)
  : completion GoogleGenerativeAI * Process :=
  match genAI p with
  | Some client => (Return client, p)
  | None =>
      match GEMINI_API_KEY p with
      | Some (c :: k) =>
          let client := {| apiKey := c :: k |} in
          (Return client,
           {| GEMINI_API_KEY := GEMINI_API_KEY p; genAI := Some client |})
      | Some [] | None => (Throw (ErrorObj s_key_not_defined), p)
      end
  end.

(** [createTravelPrompt], lines 34 to 37: the length of the trip.
    [Math.ceil((end.getTime() - start.getTime()) / (1000*60*60*24)) + 1];
    an invalid date makes the whole expression NaN. *)
Definition trip_days (startDate endDate : jsstring) : option Z :=
  match getTime startDate, getTime endDate with
  | Some start, Some end_ =>
      Some (ceil_div (end_ - start) (1000 * 60 * 60 * 24) + 1)%Z
  | _, _ => None
  end.

Definition trip_nights (startDate endDate : jsstring) : option Z :=
  option_map (fun days => (days - 1)%Z) (trip_days startDate endDate).

(** [createTravelPrompt]: the template is fixed text around these
    values; an empty description prints as the default. *)
Definition createTravelPrompt (travelData : TravelData.t) : TravelPrompt :=
  let startDate := TravelData.startDate travelData in
  let endDate := TravelData.endDate travelData in
  {| tp_destination := TravelData.destination travelData;
     tp_startDate := startDate;
     tp_endDate := endDate;
     tp_nights := trip_nights startDate endDate;
     tp_days := trip_days startDate endDate;
     tp_memberCount := TravelData.memberCount travelData;
     tp_budget := TravelData.budget travelData;
     tp_interests := TravelData.interests travelData;
     tp_travelStyle := TravelData.travelStyle travelData;
     tp_description :=
       match TravelData.description travelData with
       | [] => s_none_specified
       | d => d
       end |}.

(** [Array.prototype.join] *)
Fixpoint join (sep : jsstring) (l : list jsstring) : jsstring :=
  match l with
  | [] => []
  | [x] => x
  | x :: l' => x ++ sep ++ join sep l'
  end.

Definition obj (fields : list (string * JSValue)) : JSValue :=
  JObj (map (fun kv => (lit (fst kv), snd kv)) fields).

(** [generateMockPlan] *)
Definition generateMockPlan (travelData : TravelData.t) : JSValue :=
  let destination := TravelData.destination travelData in
  let startDate := TravelData.startDate travelData in
  let budget := TravelData.budget travelData in
  let interests := TravelData.interests travelData in
  obj [
    ("schedule", JArr [
      obj [
        ("date", JStr startDate);
        ("day", JStr (lit "Day 1"));
        ("items", JArr [
          obj [
            ("time", JStr (lit "09:00"));
            ("title", JStr (destination ++ s_arrival));
            ("location", JStr destination);
            ("description", JStr s_transfer);
            ("category", JStr (lit "transport"))
          ];
          obj [
            ("time", JStr (lit "14:00"));
            ("title", JStr s_recommended_spot);
            ("location", JStr (destination ++ s_sights));
            ("description", JStr (join s_comma interests ++ s_based_on));
            ("category", JStr (lit "sightseeing"))
          ]
        ])
      ]
    ]);
    ("places", JArr [
      obj [
        ("name", JStr (destination ++ s_popular));
        ("category", JStr s_tourist_site);
        ("rating", JNum 4.5%float);
        ("description", JStr s_ai_choice)
      ]
    ]);
    ("budget", obj [
      ("transportation", JNum (Math_round (budget * 0.3)%float));
      ("accommodation", JNum (Math_round (budget * 0.4)%float));
      ("food", JNum (Math_round (budget * 0.2)%float));
      ("activities", JNum (Math_round (budget * 0.1)%float))
    ]);
    ("recommendations", obj [
      ("mustVisit", JArr [JStr (destination ++ s_must_visit)]);
      ("localFood", JArr [JStr (destination ++ s_local_food)]);
      ("tips", JArr [JStr s_tip_weather; JStr s_tip_timetable])
    ])
  ].

(* ----------------------------------------------------------------- *)
(** *** Extraction of the JSON text from the response *)

(** The pattern [/```json\s*([\s\S]*?)\s*```/] *)
Definition fence_re : regex :=
  seq [word (lit "```json"); Star CSpace; Group 1 (LazyStar CAny);
       Star CSpace; word (lit "```")].

(** The pattern [/\{[\s\S]*\}/] *)
Definition object_re : regex := seq [Chr 123; Star CAny; Chr 125].

(** The pattern [/\[.*\]/s] *)
Definition array_re : regex := seq [Chr 91; Star CAny; Chr 93].

(** [text.match(r)] for a pattern without the [g] flag *)
Definition String_match (text : jsstring) (r : regex) : option match_result :=
  exec false r text.

(** [a || b] on match results: an array is truthy, [null] is not. *)
Definition match_or (a b : option match_result) : option match_result :=
  match a with
  | Some m => Some m
  | None => b
  end.

(** [jsonMatch ? jsonMatch[1] || jsonMatch[0] : text]: element 1 is used
    when it is a string that is not empty. *)
Definition jsonString_of (jsonMatch : option match_result) (text : jsstring)
  : jsstring :=
  match jsonMatch with
  | Some m =>
      match group 1 m with
      | Some (c :: g) => c :: g
      | Some [] | None => matched m
      end
  | None => text
  end.

(** Lines 123 and 124 of [generateTravelPlan]. *)
Definition extractPlanJson (text : jsstring) : jsstring :=
  jsonString_of
    (match_or (String_match text fence_re) (String_match text object_re))
    text.

(** Lines 286 and 287 of [generateRecommendations]. *)
Definition extractRecommendationsJson (text : jsstring) : jsstring :=
  jsonString_of
    (match_or (String_match text fence_re) (String_match text array_re))
    text.

(* ----------------------------------------------------------------- *)
(** *** Plan generation *)

Record PlanResponse : Type := {
  success : bool;
  data : JSValue;
  error : option jsstring
}.

(** [generateTravelPlan].  The promise it returns is fulfilled
    ([Return]) or rejected ([Throw]); the logging calls are left out. *)
Definition generateTravelPlan (rt : Runtime) (travelData : TravelData.t)
  (p : Process) : completion PlanResponse * Process :=
  let (client, p') := getGenAIClient p in
  (try_catch
     (model <- client ;;
      let prompt := createTravelPrompt travelData in
      text <- generateContent rt model (PlanPrompt prompt) ;;
      let jsonString := extractPlanJson text in
      plan <- JSON_parse rt jsonString ;;
      Return {| success := true; data := plan; error := None |})
     (fun error =>
        Return {| success := false;
                  data := generateMockPlan travelData;
                  error := Some (message_or s_plan_failed error) |}),
   p').

(* ----------------------------------------------------------------- *)
(** *** Recommendation generation *)

Record RecommendationsResponse : Type := {
  r_success : bool;
  recommendations : list JSValue;
  r_error : option jsstring
}.

(** The read [v.key] of a data property.  The keys the service reads
    ([name], [description], [image]) are defined on no built-in prototype,
    so such a read finds an own property or [undefined]; on [null] it
    throws. *)
Definition get_prop (rt : Runtime) (v : JSValue) (key : jsstring)
  : completion JSValue :=
  match v with
  | JUndefined | JNull => Throw (ErrorObj (TypeError_message rt v))
  | _ =>
      match lookup key (own_fields v) with
      | Some x => Return x
      | None => Return JUndefined
      end
  end.

(** [v.replace(/\s/g, '')]: only a string has the method; a value parsed
    from JSON holds no function, so the call on anything else throws. *)
Definition replace_ws (rt : Runtime) (v : JSValue) : completion jsstring :=
  match v with
  | JStr s => Return (strip_ws s)
  | _ => Throw (ErrorObj (TypeError_message rt v))
  end.

(** [(rec.key || '').replace(/\s/g, '')] *)
Definition stripped_field (rt : Runtime) (rec : JSValue) (key : jsstring)
  : completion jsstring :=
  v <- get_prop rt rec key ;;
  replace_ws rt (js_or v (JStr [])).

(** The pattern of [isValidImage], under the [i] flag: a dot, group 1
    with an extension out of [jpg|jpeg|png|webp|gif|bmp|svg], the optional
    group 2 with a question mark and [.] repeated, and [$]. *)
Definition image_extensions : list jsstring :=
  [lit "jpg"; lit "jpeg"; lit "png"; lit "webp"; lit "gif"; lit "bmp";
   lit "svg"].

Definition image_re : regex :=
  seq [Chr 46;
       Group 1 (alts (word (lit "jpg")) (map word (tl image_extensions)));
       Opt (Group 2 (seq [Chr 63; Star CDot]));
       Eos].

(** [isValidImage] *)
Definition isValidImage (url : JSValue) : bool :=
  match url with
  | JStr u =>
      startsWith u (lit "https://") &&
      test true image_re u &&
      (15 <=? length u)%nat && (length u <=? 300)%nat
  | _ => false
  end.

(** The callback of [filter]. *)
Definition keeps (rt : Runtime) (dest region : jsstring) (rec : JSValue)
  : completion bool :=
  name <- stripped_field rt rec (lit "name") ;;
  desc <- stripped_field rt rec (lit "description") ;;
  Return (includes name dest || includes desc dest ||
          (negb (Nat.eqb (length region) 0) &&
           (includes name region || includes desc region))).

(** [Array.prototype.filter] with a callback that can throw. *)
Fixpoint filterM (f : JSValue -> completion bool) (l : list JSValue)
  : completion (list JSValue) :=
  match l with
  | [] => Return []
  | x :: l' =>
      b <- f x ;;
      rest <- filterM f l' ;;
      Return (if b then x :: rest else rest)
  end.

(** The callback of [map]: [{...rec, image: ...}], for a [rec] that is
    not [null]. *)
Definition with_checked_image (rec : JSValue) : JSValue :=
  let image :=
    match lookup (lit "image") (own_fields rec) with
    | Some x => x
    | None => JUndefined
    end in
  JObj (set_prop (lit "image")
          (if isValidImage image then image else JStr placeholder_image)
          (own_fields rec)).

(** The inner [try] of [generateRecommendations]: any failure of the
    parse, or a value that is no array, throws one fixed message. *)
Definition parse_list (rt : Runtime) (jsonString : jsstring)
  : completion (list JSValue) :=
  try_catch
    (v <- JSON_parse rt jsonString ;;
     match v with
     | JArr elems => Return elems
     | _ => Throw (ErrorObj s_not_an_array)
     end)
    (fun _ => Throw (ErrorObj s_no_valid_list)).

(** [(prefs.region || '')] *)
Definition region_or_empty (prefs : Prefs.t) : jsstring :=
  match Prefs.region prefs with
  | Some r => r
  | None => []
  end.

(** [generateRecommendations] *)
Definition generateRecommendations (rt : Runtime) (prefs : Prefs.t)
  (p : Process) : completion RecommendationsResponse * Process :=
  let (client, p') := getGenAIClient p in
  (try_catch
     (model <- client ;;
      let prompt := RecommendationPrompt prefs in
      text <- generateContent rt model prompt ;;
      let jsonString := extractRecommendationsJson text in
      recs <- parse_list rt jsonString ;;
      let dest := strip_ws (Prefs.destination prefs) in
      let region := strip_ws (region_or_empty prefs) in
      kept <- filterM (keeps rt dest region) recs ;;
      let filtered := map with_checked_image kept in
      Return {| r_success := true; recommendations := filtered;
                r_error := None |})
     (fun error =>
        Return {| r_success := false; recommendations := [];
                  r_error := Some (message_or s_recs_failed error) |}),
   p').

(* ----------------------------------------------------------------- *)
(** *** Names from an image *)

(** The pattern [/\r?\n/] *)
Definition newline_re : regex := seq [Opt (Chr 13); Chr 10].

(** [lines.filter(Boolean)] on strings: the empty ones go. *)
Definition filter_Boolean (l : list jsstring) : list jsstring :=
  filter (fun x => negb (Nat.eqb (length x) 0)) l.

(** [extractNamesFromImage].  [vision] is the model call with the fixed
    prompt and the image inline ([generateContent], [result.response] and
    [response.text()] as one step).  The answer is whatever [JSON.parse]
    makes of the widest bracket span, or the lines of the text that are
    not empty; any throw gives the empty array. *)
Definition extractNamesFromImage
  (vision : GoogleGenerativeAI -> jsstring -> completion jsstring)
  (rt : Runtime) (imageBase64 : jsstring) (p : Process)
  : completion JSValue * Process :=
  let (client, p') := getGenAIClient p in
  (try_catch
     (model <- client ;;
      text <- vision model imageBase64 ;;
      match String_match text array_re with
      | Some m => JSON_parse rt (matched m)
      | None =>
          Return (JArr (map JStr
                          (filter_Boolean (String_split text newline_re))))
      end)
     (fun _ => Return (JArr [])),
   p').

End AiService.

(* ================================================================= *)
(** ** The form that collects the trip: [TravelForm.tsx] *)

Module TravelForm.
Import JS JSDate.

(* 開始日は今日以降の日付を選択してください *)
Definition s_start_in_past : jsstring :=
  [0x958B; 0x59CB; 0x65E5; 0x306F; 0x4ECA; 0x65E5; 0x4EE5; 0x964D; 0x306E;
   0x65E5; 0x4ED8; 0x3092; 0x9078; 0x629E; 0x3057; 0x3066; 0x304F; 0x3060;
   0x3055; 0x3044]%N.
(* 終了日は開始日以降の日付を選択してください *)
Definition s_end_before_start : jsstring :=
  [0x7D42; 0x4E86; 0x65E5; 0x306F; 0x958B; 0x59CB; 0x65E5; 0x4EE5; 0x964D;
   0x306E; 0x65E5; 0x4ED8; 0x3092; 0x9078; 0x629E; 0x3057; 0x3066; 0x304F;
   0x3060; 0x3055; 0x3044]%N.
(* 旅行期間は1年以内にしてください *)
Definition s_too_long : jsstring :=
  [0x65C5; 0x884C; 0x671F; 0x9593; 0x306F; 0x0031; 0x5E74; 0x4EE5; 0x5185;
   0x306B; 0x3057; 0x3066; 0x304F; 0x3060; 0x3055; 0x3044]%N.

Record DateValidation : Type := {
  isValid : bool;
  message : jsstring
}.

(** [a < b] on time values; a comparison with NaN is false. *)
Definition time_lt (a b : option Z) : bool :=
  match a, b with
  | Some x, Some y => (x <? y)%Z
  | _, _ => false
  end.

(** [Math.ceil((end.getTime() - start.getTime()) / (1000*60*60*24))] *)
Definition days_between (startDate endDate : jsstring) : option Z :=
  match getTime startDate, getTime endDate with
  | Some start, Some end_ =>
      Some (ceil_div (end_ - start) (1000 * 60 * 60 * 24))
  | _, _ => None
  end.

(** [validateDates].  [today] is the time value of the start of the
    current day, which the function takes from the clock. *)
Definition validateDates (today : Z) (startDate endDate : jsstring)
  : DateValidation :=
  match startDate, endDate with
  | [], _ | _, [] => {| isValid := false; message := [] |}
  | _, _ =>
      if time_lt (getTime startDate) (Some today) then
        {| isValid := false; message := s_start_in_past |}
      else if time_lt (getTime endDate) (getTime startDate) then
        {| isValid := false; message := s_end_before_start |}
      else
        match days_between startDate endDate with
        | Some daysDiff =>
            if (365 <? daysDiff)%Z then
              {| isValid := false; message := s_too_long |}
            else {| isValid := true; message := [] |}
        | None => {| isValid := true; message := [] |}
        end
  end.

(** [calculateTravelDuration]: days and nights; [None] is NaN. *)
Definition calculateTravelDuration (startDate endDate : jsstring)
  : option Z * option Z :=
  match startDate, endDate with
  | [], _ | _, [] => (Some 0%Z, Some 0%Z)
  | _, _ =>
      let days :=
        option_map (fun d => (d + 1)%Z) (days_between startDate endDate) in
      (days, option_map (fun d => (d - 1)%Z) days)
  end.

End TravelForm.

(* ================================================================= *)
(** ** The panel that shows the recommendations: [BudgetOverview.tsx] *)

Module BudgetOverview.
Import JS.

Open Scope string_scope.
Open Scope list_scope.

(** [v.key] on a value that is not [null]: [undefined] when absent. *)
Definition get (key : jsstring) (v : JSValue) : JSValue :=
  match lookup key (own_fields v) with
  | Some x => x
  | None => JUndefined
  end.

(** The callback of [map] in [generateRecommendations]:
    [{ ...rec, id: rec.id || String(idx + 1) }] *)
Definition with_id (idx : nat) (rec : JSValue) : JSValue :=
  JObj (set_prop (lit "id")
          (js_or (get (lit "id") rec) (JStr (index_key (idx + 1))))
          (own_fields rec)).

(** [list.map((rec, idx) => f(idx, rec))], from index [i] on. *)
Fixpoint map_indexed (f : nat -> JSValue -> JSValue) (i : nat)
  (l : list JSValue) : list JSValue :=
  match l with
  | [] => []
  | x :: l' => f i x :: map_indexed f (S i) l'
  end.

(** [a === b] for [a] any value and [b] a string. *)
Definition strict_eq_string (a : JSValue) (b : jsstring) : bool :=
  match a with
  | JStr s => jsstring_eqb s b
  | _ => false
  end.

(** [toggleBookmark]: the new list of recommendations. *)
Definition toggleBookmark (id : jsstring) (recommendations : list JSValue)
  : list JSValue :=
  map (fun rec =>
         if strict_eq_string (get (lit "id") rec) id then
           JObj (set_prop (lit "isBookmarked")
                   (JBool (negb (truthy (get (lit "isBookmarked") rec))))
                   (own_fields rec))
         else rec)
      recommendations.

End BudgetOverview.

(* ================================================================= *)
(** ** Sample inputs *)

Module Samples.
Import JS Regex JSMath JSDate AiService.

Open Scope string_scope.
Open Scope list_scope.

(** A [JSON.parse] known on the texts of a table; on any other text it
    throws a SyntaxError. *)
Definition parser_of (table : list (jsstring * JSValue)) (s : jsstring)
  : completion JSValue :=
  match lookup s table with
  | Some v => Return v
  | None => Throw (ErrorObj (lit "Unexpected token"))
  end.

(** A runtime whose model answers [reply]. *)
Definition runtime_of (reply : completion jsstring)
  (table : list (jsstring * JSValue)) : Runtime :=
  {| generateContent := fun _ _ => reply;
     JSON_parse := parser_of table;
     TypeError_message := fun _ => lit "TypeError" |}.

(* 京都 *)
Definition kyoto : jsstring := [0x4EAC; 0x90FD]%N.
(* 東京タワー *)
Definition tokyo_tower : jsstring := [0x6771; 0x4EAC; 0x30BF; 0x30EF; 0x30FC]%N.
(* 京都の金閣寺 *)
Definition kinkakuji : jsstring :=
  [0x4EAC; 0x90FD; 0x306E; 0x91D1; 0x95A3; 0x5BFA]%N.

Definition trip (budget : float) : TravelData.t :=
  {| TravelData.destination := kyoto;
     TravelData.startDate := lit "2024-03-15";
     TravelData.endDate := lit "2024-03-17";
     TravelData.memberCount := 2%float;
     TravelData.budget := budget;
     TravelData.interests := [lit "temples"; lit "food"];
     TravelData.travelStyle := lit "balanced";
     TravelData.description := [] |}.

Definition prefs_kyoto : Prefs.t :=
  {| Prefs.destination := kyoto;
     Prefs.region := None;
     Prefs.interests := [lit "temples"];
     Prefs.budget := lit "medium";
     Prefs.travelStyle := lit "balanced";
     Prefs.groupSize := 2%float;
     Prefs.duration := 3%float;
     Prefs.customNote := None |}.

(** A process started without the key, and one started with it. *)
Definition no_key : Process := {| GEMINI_API_KEY := None; genAI := None |}.
Definition with_key : Process :=
  {| GEMINI_API_KEY := Some (lit "k-123"); genAI := None |}.

(** JSON text for the sample values: strings without escapes, arrays
    and objects; anything else prints as [null]. *)
Fixpoint render (v : JSValue) : jsstring :=
  match v with
  | JStr s => [34%N] ++ s ++ [34%N]
  | JArr elems =>
      let fix items (l : list JSValue) : jsstring :=
        match l with
        | [] => []
        | [x] => render x
        | x :: l' => render x ++ [44%N] ++ items l'
        end in
      [91%N] ++ items elems ++ [93%N]
  | JObj fields =>
      let fix items (l : list (jsstring * JSValue)) : jsstring :=
        match l with
        | [] => []
        | [(k, x)] => [34%N] ++ k ++ [34%N; 58%N] ++ render x
        | (k, x) :: l' =>
            [34%N] ++ k ++ [34%N; 58%N] ++ render x ++ [44%N] ++ items l'
        end in
      [123%N] ++ items fields ++ [125%N]
  | _ => lit "null"
  end.

Definition spot (name description image : jsstring) : JSValue :=
  obj [("name", JStr name); ("category", JStr (lit "sightseeing"));
       ("image", JStr image); ("description", JStr description)].

(** Two spots the model may answer for Kyoto: one in Kyoto, one not. *)
Definition two_spots : JSValue :=
  JArr [spot kinkakuji (lit "A golden pavilion") (lit "https://example.com/kinkaku.JPG");
        spot tokyo_tower (lit "A tower") []].

(** The answer of the model: the JSON in a fence, after some prose. *)
Definition fenced_reply (v : JSValue) : jsstring :=
  lit "Here you are:" ++ [10%N] ++ lit "```json" ++ [10%N] ++ render v ++
  [10%N] ++ lit "```".

Definition runtime_answering (v : JSValue) : Runtime :=
  runtime_of (Return (fenced_reply v)) [(render v, v)].

End Samples.

(* ================================================================= *)
(** ** The notions the properties are stated with *)

Module Props.
Import JS Regex JSMath JSDate AiService.

Open Scope string_scope.
Open Scope list_scope.

(** The key is absent at first use: no client yet, and the variable is
    unset or empty. *)
Definition key_absent (p : Process) : Prop :=
  genAI p = None /\ (GEMINI_API_KEY p = None \/ GEMINI_API_KEY p = Some []).


(** The fallback answer for a thrown [e]. *)
Definition fallback (travelData : TravelData.t) (e : thrown) : PlanResponse :=
  {| success := false;
     data := generateMockPlan travelData;
     error := Some (message_or s_plan_failed e) |}.

(** [text] contains [sub] as a substring, code unit for code unit (so
    case-sensitively). *)
Definition mentions (text sub : jsstring) : Prop :=
  exists pre post, text = pre ++ sub ++ post.

(** The invariant of a recommendation: its name or its description,
    whitespace-stripped, contains the stripped destination, or a region
    was supplied, the destination is in neither, and the stripped region
    is in one of them. *)
Definition about (rt : Runtime) (prefs : Prefs.t) (rec : JSValue) : Prop :=
  exists name desc,
    stripped_field rt rec (lit "name") = Return name /\
    stripped_field rt rec (lit "description") = Return desc /\
    let dest := strip_ws (Prefs.destination prefs) in
    ((mentions name dest \/ mentions desc dest) \/
     (exists region,
        Prefs.region prefs = Some region /\
        ~ (mentions name dest \/ mentions desc dest) /\
        (mentions name (strip_ws region) \/ mentions desc (strip_ws region)))).

(** The call reached the filter with the array [parsed]: the client
    was there, the model answered, and [JSON.parse] of the extracted text
    returned that array. *)
Definition parsed_array (rt : Runtime) (prefs : Prefs.t) (p : Process)
  (parsed : list JSValue) : Prop :=
  exists client text,
    fst (getGenAIClient p) = Return client /\
    generateContent rt client (RecommendationPrompt prefs) = Return text /\
    JSON_parse rt (extractRecommendationsJson text) = Return (JArr parsed).

(** [kept] are the elements of [parsed] that survive the filter on
    destination and region, in their order. *)
Definition survivors (rt : Runtime) (prefs : Prefs.t)
  (parsed kept : list JSValue) : Prop :=
  filterM (keeps rt (strip_ws (Prefs.destination prefs))
                    (strip_ws (region_or_empty prefs))) parsed = Return kept.

(** [l1] is [l2] with some elements left out, the others in their order. *)
Inductive Subseq {A : Type} : list A -> list A -> Prop :=
| Subseq_nil : Subseq [] []
| Subseq_skip x l1 l2 : Subseq l1 l2 -> Subseq l1 (x :: l2)
| Subseq_keep x l1 l2 : Subseq l1 l2 -> Subseq (x :: l1) (x :: l2).

(** [v.key] for a value that is not [null], as an option. *)
Definition field (key : jsstring) (v : JSValue) : option JSValue :=
  lookup key (own_fields v).

(** [rec.image] *)
Definition image_of (rec : JSValue) : JSValue :=
  match field (lit "image") rec with
  | Some x => x
  | None => JUndefined
  end.

(** [out] is [rec] in every field but [image], which is [rec]'s or the
    placeholder. *)
Definition same_but_image (rec out : JSValue) : Prop :=
  (forall key, key <> lit "image" -> field key out = field key rec) /\
  (image_of out = image_of rec \/ image_of out = JStr placeholder_image).

(** A stage of recommendation generation fails: no client, the model
    call throws, [JSON.parse] throws, the parsed value is no array, or the
    filter throws on an element. *)
Inductive recs_stage_fails (rt : Runtime) (prefs : Prefs.t) (p : Process)
  : Prop :=
| recs_no_client e :
    fst (getGenAIClient p) = Throw e ->
    recs_stage_fails rt prefs p
| recs_model_throws client e :
    fst (getGenAIClient p) = Return client ->
    generateContent rt client (RecommendationPrompt prefs) = Throw e ->
    recs_stage_fails rt prefs p
| recs_parse_throws client text e :
    fst (getGenAIClient p) = Return client ->
    generateContent rt client (RecommendationPrompt prefs) = Return text ->
    JSON_parse rt (extractRecommendationsJson text) = Throw e ->
    recs_stage_fails rt prefs p
| recs_not_an_array client text v :
    fst (getGenAIClient p) = Return client ->
    generateContent rt client (RecommendationPrompt prefs) = Return text ->
    JSON_parse rt (extractRecommendationsJson text) = Return v ->
    (forall elems, v <> JArr elems) ->
    recs_stage_fails rt prefs p
| recs_filter_throws parsed e :
    parsed_array rt prefs p parsed ->
    filterM (keeps rt (strip_ws (Prefs.destination prefs))
                      (strip_ws (region_or_empty prefs))) parsed = Throw e ->
    recs_stage_fails rt prefs p.

(** The strings a pattern can consume when [rest] follows them: the
    language of the pattern, without the matcher's priorities. *)
Fixpoint Lang (icase : bool) (r : regex) (s rest : jsstring) : Prop :=
  match r with
  | Chr c => exists x, s = [x] /\ chr_eq icase c x = true
  | Cls p => exists x, s = [x] /\ in_class p x = true
  | Cat r1 r2 =>
      exists s1 s2,
        s = s1 ++ s2 /\ Lang icase r1 s1 (s2 ++ rest) /\ Lang icase r2 s2 rest
  | Alt r1 r2 => Lang icase r1 s rest \/ Lang icase r2 s rest
  | Star p | LazyStar p => Forall (fun x => in_class p x = true) s
  | Opt r' => s = [] \/ Lang icase r' s rest
  | Group _ r' => Lang icase r' s rest
  | Eos => s = [] /\ rest = []
  | Eps => s = []
  end.

(** [w] and [ext] are the same word up to the case of ASCII letters. *)
Definition same_letters (w ext : jsstring) : Prop :=
  Forall2 (fun c x => canon true c = canon true x) w ext.

(** Nothing, or a question mark and any characters but line terminators. *)
Definition query_string (q : jsstring) : Prop :=
  q = [] \/
  exists q', q = 63%N :: q' /\ Forall (fun c => is_line_terminator c = false) q'.

(** [u] ends with a dot, an image extension in either case, and an
    optional query string. *)
Definition has_image_suffix (u : jsstring) : Prop :=
  exists pre w ext q,
    u = pre ++ [46%N] ++ ext ++ q /\
    In w image_extensions /\ same_letters w ext /\ query_string q.

(** The rule on the [image] field. *)
Definition valid_image (v : JSValue) : Prop :=
  exists u,
    v = JStr u /\
    (exists rest, u = lit "https://" ++ rest) /\
    has_image_suffix u /\
    (15 <= length u <= 300)%nat.

(** The returned [image] is the parsed one when that is valid, and the
    placeholder when it is not. *)
Definition image_checked (rec out : JSValue) : Prop :=
  (valid_image (image_of rec) -> image_of out = image_of rec) /\
  (~ valid_image (image_of rec) -> image_of out = JStr placeholder_image).

(** The rule as the specification writes it: the whole string against
    [https://], [.] repeated, a dot, one of the seven extensions as
    written, an optional query string and the end, without any flag; and
    a length from 15 to 300. *)
Definition spec_image_re : regex :=
  seq [word (lit "https://"); Star CDot; Chr 46;
       Group 1 (alts (word (lit "jpg")) (map word (tl image_extensions)));
       Opt (Group 2 (seq [Chr 63; Star CDot]));
       Eos].

Definition spec_image_rule (v : JSValue) : bool :=
  match v with
  | JStr u =>
      match match_here false spec_image_re u with
      | Some _ => (15 <=? length u)%nat && (length u <=? 300)%nat
      | None => false
      end
  | _ => false
  end.

(** The closing fence, and the opening fence with its label. *)
Definition ticks : jsstring := lit "```".
Definition json_fence : jsstring := lit "```json".

Definition all_space (ws : jsstring) : Prop :=
  Forall (fun c => is_space c = true) ws.

(** Not empty, and with no whitespace at either end. *)
Definition trimmed (inner : jsstring) : Prop :=
  inner <> [] /\
  (forall c r, inner = c :: r -> is_space c = false) /\
  (forall r c, inner = r ++ [c] -> is_space c = false).

(** [text] holds a fence labelled [json] with the content [inner]: the
    first opening fence of the text, whitespace, [inner], whitespace, and
    the first closing fence after the label. *)
Definition json_fenced (text inner : jsstring) : Prop :=
  exists pre ws1 ws2 post,
    text = pre ++ json_fence ++ ws1 ++ inner ++ ws2 ++ ticks ++ post /\
    ~ mentions (pre ++ lit "```jso") json_fence /\
    all_space ws1 /\ all_space ws2 /\ trimmed inner /\
    ~ mentions (inner ++ ws2 ++ lit "``") ticks.

(** [text] holds an opening fence labelled [json] and a closing fence
    after it. *)
Definition has_json_fence (text : jsstring) : Prop :=
  exists pre mid post, text = pre ++ json_fence ++ mid ++ ticks ++ post.

(** [m] is the part of [text] from its first [opening] to its last
    [closing] character. *)
Definition delimited (opening closing : N) (text m : jsstring) : Prop :=
  exists pre mid post,
    text = pre ++ [opening] ++ mid ++ [closing] ++ post /\
    ~ In opening pre /\ ~ In closing post /\
    m = [opening] ++ mid ++ [closing].

(** [text] holds [opening] and, somewhere after it, [closing]. *)
Definition has_delimited (opening closing : N) (text : jsstring) : Prop :=
  exists pre mid post, text = pre ++ [opening] ++ mid ++ [closing] ++ post.

(** A fenced block as the specification words it: three backticks, the
    label [json] or none, the content between optional whitespace, three
    backticks. *)
Definition spec_fenced (text inner : jsstring) : Prop :=
  exists pre label ws1 ws2 post,
    text = pre ++ ticks ++ label ++ ws1 ++ inner ++ ws2 ++ ticks ++ post /\
    (label = [] \/ label = lit "json") /\
    all_space ws1 /\ all_space ws2.

(** The four parts of the budget of a plan. *)
Definition plan_budget (plan : JSValue) : option (float * float * float * float) :=
  match field (lit "budget") plan with
  | Some b =>
      match field (lit "transportation") b, field (lit "accommodation") b,
            field (lit "food") b, field (lit "activities") b with
      | Some (JNum t), Some (JNum a), Some (JNum f), Some (JNum c) =>
          Some (t, a, f, c)
      | _, _, _, _ => None
      end
  | None => None
  end.

(** The four parts add up to at most [budget], in the arithmetic of
    doubles. *)
Definition within_budget (plan : JSValue) (budget : float) : bool :=
  match plan_budget plan with
  | Some (t, a, f, c) => (t + a + f + c <=? budget)%float
  | None => false
  end.

(** The trip starts no later than it ends. *)
Definition dates_in_order (travelData : TravelData.t) : Prop :=
  exists s e,
    getTime (TravelData.startDate travelData) = Some s /\
    getTime (TravelData.endDate travelData) = Some e /\
    (s <= e)%Z.

(** The double [x] is finite and its value is the integer [n]. *)
Definition holds_integer (x : float) (n : Z) : Prop :=
  exists q, number_value x = Some q /\ (q == inject_Z n)%Q.

(** [n] is the integer nearest to [q], a tie going up. *)
Definition nearest (q : Q) (n : Z) : Prop :=
  (q - (1 # 2) < inject_Z n /\ inject_Z n <= q + (1 # 2))%Q.

(** The process [p] after the environment variable has become [key]. *)
Definition with_env (key : option jsstring) (p : Process) : Process :=
  {| GEMINI_API_KEY := key; genAI := genAI p |}.

(** The preferences without a region. *)
Definition without_region (prefs : Prefs.t) : Prefs.t :=
  {| Prefs.destination := Prefs.destination prefs;
     Prefs.region := None;
     Prefs.interests := Prefs.interests prefs;
     Prefs.budget := Prefs.budget prefs;
     Prefs.travelStyle := Prefs.travelStyle prefs;
     Prefs.groupSize := Prefs.groupSize prefs;
     Prefs.duration := Prefs.duration prefs;
     Prefs.customNote := Prefs.customNote prefs |}.

(** An element the filter cannot read: [null], or one whose [name] or
    [description] is truthy and not a string. *)
Definition unreadable_text (v : option JSValue) : Prop :=
  exists x, v = Some x /\ truthy x = true /\ forall s, x <> JStr s.

Definition malformed (rec : JSValue) : Prop :=
  rec = JNull \/
  unreadable_text (field (lit "name") rec) \/
  unreadable_text (field (lit "description") rec).

(** The name or the description of [rec], whitespace-stripped, contains
    the stripped destination. *)
Definition about_destination (rt : Runtime) (prefs : Prefs.t)
  (rec : JSValue) : Prop :=
  exists name desc,
    stripped_field rt rec (lit "name") = Return name /\
    stripped_field rt rec (lit "description") = Return desc /\
    (mentions name (strip_ws (Prefs.destination prefs)) \/
     mentions desc (strip_ws (Prefs.destination prefs))).

(** A line break after the piece [piece]: carriage return and line
    feed, or a line feed alone that no carriage return precedes. *)
Definition line_break (piece sep : jsstring) : Prop :=
  sep = [13; 10]%N \/ (sep = [10]%N /\ forall q, piece <> q ++ [13%N]).

(** [pieces] are the lines of [text]: the text is the pieces with a
    line break after each but the last, and no piece holds a line feed. *)
Definition lines_of (text : jsstring) (pieces : list jsstring) : Prop :=
  exists segs last,
    text = concat (map (fun ps => fst ps ++ snd ps) segs) ++ last /\
    pieces = map fst segs ++ [last] /\
    Forall (fun ps => ~ In 10%N (fst ps) /\ line_break (fst ps) (snd ps))
      segs /\
    ~ In 10%N last.

(** A finite double whose value is not negative. *)
Definition not_negative (x : float) : Prop :=
  forall v, number_value x = Some v -> (0 <= v)%Q.

(** An element as [JSON.parse] gives it for a JSON object. *)
Definition is_object (rec : JSValue) : Prop := exists fields, rec = JObj fields.

(** An object that holds [isBookmarked] as a boolean. *)
Definition has_bookmark_flag (rec : JSValue) : Prop :=
  exists fields b,
    rec = JObj fields /\ lookup (lit "isBookmarked") fields = Some (JBool b).


End Props.

(* ================================================================= *)
(** ** Plan generation: what the caller receives *)

(** Both entry points start with [getGenAIClient]: given [Hc], which
    says what it returned, replace the call by that result. *)
Ltac with_client Hc :=
  revert Hc;
  match goal with
  | |- context [AiService.getGenAIClient ?p] =>
      let c := fresh "c" in
      let p' := fresh "p'" in
      destruct (AiService.getGenAIClient p) as [c p']; intros Hc;
      cbn [fst] in Hc; subst c; cbn [fst JS.try_catch JS.bind]
  end.

Module PlanFacts.
Import JS Regex JSMath JSDate AiService Props.

Lemma getGenAIClient_absent (p : Process) :
  key_absent p -> getGenAIClient p = (Throw (ErrorObj s_key_not_defined), p).
Proof.
  intros [Hc Hk]. unfold getGenAIClient. rewrite Hc.
  destruct Hk as [-> | ->]; reflexivity.
Qed.

(** Whatever the runtime does, the promise of [generateTravelPlan] is
    fulfilled: its [catch] covers the whole body. *)
Lemma generateTravelPlan_never_rejects rt travelData p :
  exists r, fst (generateTravelPlan rt travelData p) = Return r.
Proof.
  unfold generateTravelPlan.
  destruct (getGenAIClient p) as [[client | e] p']; cbn [fst try_catch bind].
  - destruct (generateContent rt client _) as [text | e]; cbn [try_catch bind].
    + destruct (JSON_parse rt _) as [plan | e]; cbn; eauto.
    + eauto.
  - eauto.
Qed.


(** C2, as amended.  When the API key is absent at first use,
    [getGenAIClient] throws inside the [try] of [generateTravelPlan], so
    the error is caught like any other: the call is fulfilled with
    [success: false], the mock plan, and the message
    [GEMINI_API_KEY is not defined]; the process state is unchanged. *)
Theorem missing_key_falls_back rt travelData p :
  key_absent p ->
  generateTravelPlan rt travelData p =
    (Return {| success := false;
               data := generateMockPlan travelData;
               error := Some s_key_not_defined |}, p).
Proof.
  intros H. unfold generateTravelPlan.
  rewrite (getGenAIClient_absent H). reflexivity.
Qed.

Lemma missing_key_falls_back_witness :
  key_absent Samples.no_key /\
  generateTravelPlan (Samples.runtime_of (Return []) []) (Samples.trip 9)
    Samples.no_key =
    (Return {| success := false;
               data := generateMockPlan (Samples.trip 9);
               error := Some s_key_not_defined |}, Samples.no_key).
Proof.
  assert (H : key_absent Samples.no_key) by (split; [reflexivity | left; reflexivity]).
  split; [exact H | exact (missing_key_falls_back _ _ H)].
Defined.

(** C2, as stated, fails: with the key absent the call does not reject. *)
Lemma missing_key_does_not_reject :
  ~ (forall rt travelData p,
       key_absent p ->
       exists e, fst (generateTravelPlan rt travelData p) = Throw e).
Proof.
  intros H.
  destruct (H (Samples.runtime_of (Return []) []) (Samples.trip 9)
              Samples.no_key) as [e He].
  - split; [reflexivity | left; reflexivity].
  - discriminate He.
Qed.



(** C8.  Whenever [JSON.parse] of the extracted text returns a value,
    of any shape, the call is fulfilled with [success: true] and that
    value as the plan, unchanged and unchecked. *)
Theorem parsed_plan_is_passed_through rt travelData p client text plan :
  fst (getGenAIClient p) = Return client ->
  generateContent rt client (PlanPrompt (createTravelPrompt travelData))
    = Return text ->
  JSON_parse rt (extractPlanJson text) = Return plan ->
  fst (generateTravelPlan rt travelData p) =
    Return {| success := true; data := plan; error := None |}.
Proof.
  intros Hc Hm Hp. unfold generateTravelPlan. with_client Hc.
  rewrite Hm. cbn [bind]. rewrite Hp. reflexivity.
Qed.

Lemma parsed_plan_is_passed_through_witness :
  let rt := Samples.runtime_of (Return (lit "Sure! 42"))
              [(lit "Sure! 42", JNum 42%float)] in
  fst (generateTravelPlan rt (Samples.trip 9) Samples.with_key) =
    Return {| success := true; data := JNum 42%float; error := None |}.
Proof.
  intros rt.
  apply (@parsed_plan_is_passed_through rt (Samples.trip 9) Samples.with_key
           {| apiKey := lit "k-123" |} (lit "Sure! 42") (JNum 42%float));
    reflexivity.
Defined.

End PlanFacts.

(* ================================================================= *)
(** ** Strings and objects *)

Module JSFacts.
Import JS Props.

Lemma startsWith_app (p rest : jsstring) : startsWith (p ++ rest) p = true.
Proof.
  induction p as [| a p IH]; cbn; [reflexivity | ].
  rewrite N.eqb_refl. exact IH.
Qed.

Lemma startsWith_inv (s p : jsstring) :
  startsWith s p = true -> exists rest, s = p ++ rest.
Proof.
  revert s. induction p as [| a p IH]; intros s H.
  - exists s. reflexivity.
  - destruct s as [| b s]; cbn in H; [discriminate | ].
    apply andb_true_iff in H as [Hab Hs].
    apply N.eqb_eq in Hab. subst b.
    destruct (IH _ Hs) as [rest ->]. exists rest. reflexivity.
Qed.

Lemma startsWith_iff (s p : jsstring) :
  startsWith s p = true <-> exists rest, s = p ++ rest.
Proof.
  split; [apply startsWith_inv | intros [rest ->]; apply startsWith_app].
Qed.

(** [includes] decides the substring relation. *)
Lemma includes_iff (s sub : jsstring) :
  includes s sub = true <-> mentions s sub.
Proof.
  unfold mentions. split.
  - induction s as [| c s IH]; cbn; intros H.
    + rewrite orb_false_r in H. apply startsWith_inv in H as [rest Hr].
      exists [], rest. exact Hr.
    + apply orb_true_iff in H as [H | H].
      * apply startsWith_inv in H as [rest Hr]. exists [], rest. exact Hr.
      * destruct (IH H) as (pre & post & ->). exists (c :: pre), post.
        reflexivity.
  - intros (pre & post & ->). induction pre as [| c pre IH].
    + cbn [app]. destruct (sub ++ post) eqn:E; cbn.
      * destruct sub; [reflexivity | discriminate].
      * rewrite <- E, startsWith_app. reflexivity.
    + cbn. rewrite IH. apply orb_true_r.
Qed.

Lemma includes_false_iff (s sub : jsstring) :
  includes s sub = false <-> ~ mentions s sub.
Proof.
  rewrite <- includes_iff. destruct (includes s sub); split; congruence.
Qed.

Lemma jsstring_eqb_eq (a b : jsstring) : jsstring_eqb a b = true <-> a = b.
Proof.
  unfold jsstring_eqb. split.
  - intros H. apply andb_true_iff in H as [Hl Hs].
    apply Nat.eqb_eq in Hl. apply startsWith_inv in Hs as [rest ->].
    rewrite length_app in Hl. destruct rest; [apply app_nil_r | cbn in Hl; lia].
  - intros ->. rewrite Nat.eqb_refl. cbn.
    rewrite <- (app_nil_r b) at 1. apply startsWith_app.
Qed.

Lemma jsstring_eqb_neq (a b : jsstring) : jsstring_eqb a b = false <-> a <> b.
Proof.
  rewrite <- jsstring_eqb_eq. destruct (jsstring_eqb a b); split; congruence.
Qed.

(** Frame: setting one property leaves the others as they were. *)
Lemma lookup_set_prop_other k v key fields :
  key <> k -> lookup key (set_prop k v fields) = lookup key fields.
Proof.
  intros Hne. induction fields as [| [k' v'] rest IH]; cbn.
  - apply jsstring_eqb_neq in Hne.
    destruct (jsstring_eqb k key) eqn:E; [ | reflexivity].
    apply jsstring_eqb_eq in E. subst. apply jsstring_eqb_neq in Hne.
    congruence.
  - destruct (jsstring_eqb k' k) eqn:E; cbn.
    + apply jsstring_eqb_eq in E. subst k'.
      assert (jsstring_eqb k key = false) as -> by (apply jsstring_eqb_neq; congruence).
      reflexivity.
    + rewrite IH. reflexivity.
Qed.

Lemma lookup_set_prop_same k v fields :
  lookup k (set_prop k v fields) = Some v.
Proof.
  assert (Hk : jsstring_eqb k k = true) by (apply jsstring_eqb_eq; reflexivity).
  induction fields as [| [k' v'] rest IH]; cbn.
  - rewrite Hk. reflexivity.
  - destruct (jsstring_eqb k' k) eqn:E; cbn.
    + rewrite Hk. reflexivity.
    + rewrite E. exact IH.
Qed.

End JSFacts.

(* ================================================================= *)
(** ** Recommendation generation *)

Module RecsFacts.
Import JS Regex AiService Props JSFacts.

Open Scope string_scope.
Open Scope list_scope.

Lemma Subseq_In {A} (l1 l2 : list A) x : Subseq l1 l2 -> In x l1 -> In x l2.
Proof.
  induction 1 as [| y l1 l2 _ IH | y l1 l2 _ IH]; cbn; intuition.
Qed.

(** A filter that returns kept a subsequence, and its callback returned
    [true] on each element kept. *)
Lemma filterM_inv f (l kept : list JSValue) :
  filterM f l = Return kept ->
  Subseq kept l /\ (forall x, In x kept -> f x = Return true).
Proof.
  revert kept. induction l as [| x l IH]; cbn; intros kept H.
  - injection H as <-. split; [constructor | intros x []].
  - destruct (f x) as [b | e] eqn:Hf; cbn in H; [ | discriminate].
    destruct (filterM f l) as [rest | e]; cbn in H; [ | discriminate].
    destruct (IH rest eq_refl) as [Hs Hk].
    injection H as <-. destruct b.
    + split; [constructor; exact Hs | ].
      intros y [<- | Hy]; [exact Hf | exact (Hk y Hy)].
    + split; [constructor; exact Hs | exact Hk].
Qed.

(** The shape of a call that answered [success: true]. *)
Lemma recs_success_inv rt prefs p r :
  fst (generateRecommendations rt prefs p) = Return r ->
  r_success r = true ->
  exists parsed kept,
    parsed_array rt prefs p parsed /\
    survivors rt prefs parsed kept /\
    recommendations r = map with_checked_image kept.
Proof.
  unfold generateRecommendations, parsed_array, survivors.
  destruct (getGenAIClient p) as [[client | e] p'];
    cbn [fst try_catch bind]; intros Hr Hs;
    [ | injection Hr as <-; discriminate Hs].
  destruct (generateContent rt client _) as [text | e] eqn:Hm;
    cbn [try_catch bind] in Hr; [ | injection Hr as <-; discriminate Hs].
  unfold parse_list in Hr.
  destruct (JSON_parse rt _) as [v | e] eqn:Hp;
    cbn [try_catch bind] in Hr; [ | injection Hr as <-; discriminate Hs].
  destruct v as [| | b | x | s | parsed | fields];
    cbn [try_catch bind] in Hr; try (injection Hr as <-; discriminate Hs).
  destruct (filterM _ parsed) as [kept | e] eqn:Hf;
    cbn [try_catch bind] in Hr; [ | injection Hr as <-; discriminate Hs].
  injection Hr as <-. exists parsed, kept. cbn. eauto 8.
Qed.

(** The promise of [generateRecommendations] is always fulfilled, and
    an answer with [success: false] carries an empty list and a message. *)
Lemma generateRecommendations_never_rejects rt prefs p :
  exists r,
    fst (generateRecommendations rt prefs p) = Return r /\
    (r_success r = false ->
     recommendations r = [] /\ exists msg, r_error r = Some msg).
Proof.
  unfold generateRecommendations.
  destruct (getGenAIClient p) as [[client | e] p'];
    cbn [fst try_catch bind]; [ | eexists; split; [reflexivity | cbn; eauto]].
  destruct (generateContent rt client _) as [text | e];
    cbn [try_catch bind]; [ | eexists; split; [reflexivity | cbn; eauto]].
  destruct (parse_list rt _) as [parsed | e];
    cbn [try_catch bind]; [ | eexists; split; [reflexivity | cbn; eauto]].
  destruct (filterM _ parsed) as [kept | e];
    cbn [try_catch bind]; eexists; (split; [reflexivity | cbn; eauto]).
  discriminate.
Qed.

(** C6.  When any stage of recommendation generation fails, the caller
    receives [success: false], an empty list and an error message; no
    recommendation is made up. *)
Theorem failure_returns_empty_list rt prefs p :
  recs_stage_fails rt prefs p ->
  exists msg,
    fst (generateRecommendations rt prefs p) =
      Return {| r_success := false; recommendations := [];
                r_error := Some msg |}.
Proof.
  intros H. unfold generateRecommendations.
  destruct H as [e Hc | client e Hc Hm | client text e Hc Hm Hp
                | client text v Hc Hm Hp Hv
                | parsed e (client & text & Hc & Hm & Hp) Hf];
    with_client Hc.
  - eauto.
  - rewrite Hm. cbn. eauto.
  - rewrite Hm. cbn [bind]. unfold parse_list. rewrite Hp. cbn. eauto.
  - rewrite Hm. cbn [bind]. unfold parse_list. rewrite Hp.
    destruct v; cbn; eauto. exfalso. eapply Hv. reflexivity.
  - rewrite Hm. cbn [bind]. unfold parse_list. rewrite Hp.
    cbn [bind try_catch]. rewrite Hf. cbn. eauto.
Qed.

Lemma failure_returns_empty_list_witness :
  let rt := Samples.runtime_of (Return (lit "I cannot help with that.")) [] in
  recs_stage_fails rt Samples.prefs_kyoto Samples.with_key /\
  exists msg,
    fst (generateRecommendations rt Samples.prefs_kyoto Samples.with_key) =
      Return {| r_success := false; recommendations := [];
                r_error := Some msg |}.
Proof.
  intros rt.
  assert (H : recs_stage_fails rt Samples.prefs_kyoto Samples.with_key).
  { eapply recs_parse_throws; reflexivity. }
  split; [exact H | exact (failure_returns_empty_list H)].
Defined.

(** Reads of a kept element and of what [map] returns for it agree on
    every key but [image]. *)
Lemma field_with_checked_image rec key :
  key <> lit "image" ->
  field key (with_checked_image rec) = field key rec.
Proof.
  intros Hne. unfold field, with_checked_image. cbn [own_fields].
  apply lookup_set_prop_other. exact Hne.
Qed.

Lemma image_of_with_checked_image rec :
  image_of (with_checked_image rec) =
    if isValidImage (image_of rec) then image_of rec
    else JStr placeholder_image.
Proof.
  unfold image_of at 1. unfold field, with_checked_image. cbn [own_fields].
  rewrite lookup_set_prop_same. reflexivity.
Qed.

Lemma stripped_field_with_checked_image rt rec key s :
  key <> lit "image" ->
  stripped_field rt rec key = Return s ->
  stripped_field rt (with_checked_image rec) key = Return s.
Proof.
  intros Hne H. unfold stripped_field in *.
  assert (Hg : get_prop rt (with_checked_image rec) key = get_prop rt rec key).
  { pose proof (field_with_checked_image rec Hne) as Hf. unfold field in Hf.
    destruct rec; cbn in H; try discriminate;
      unfold get_prop; unfold with_checked_image at 1; cbv beta iota;
      rewrite Hf; reflexivity. }
  rewrite Hg. exact H.
Qed.

(** What the callback of [filter] answers [true] on. *)
Lemma keeps_true_about rt prefs rec :
  keeps rt (strip_ws (Prefs.destination prefs))
           (strip_ws (region_or_empty prefs)) rec = Return true ->
  about rt prefs rec.
Proof.
  unfold keeps, about. intros H.
  destruct (stripped_field rt rec (lit "name")) as [name | e];
    cbn [bind] in H; [ | discriminate].
  destruct (stripped_field rt rec (lit "description")) as [desc | e];
    cbn [bind] in H; [ | discriminate].
  exists name, desc. split; [reflexivity | split; [reflexivity | ]].
  cbv zeta. injection H as H.
  set (dest := strip_ws (Prefs.destination prefs)) in *.
  destruct (includes name dest) eqn:En.
  { left. left. apply includes_iff. exact En. }
  destruct (includes desc dest) eqn:Ed.
  { left. right. apply includes_iff. exact Ed. }
  cbn [orb] in H. apply andb_true_iff in H as [Hr Hi].
  right. unfold region_or_empty in *.
  destruct (Prefs.region prefs) as [region | ]; [ | discriminate Hr].
  exists region. split; [reflexivity | split].
  - apply includes_false_iff in En, Ed. tauto.
  - apply orb_true_iff in Hi as [Hi | Hi]; apply includes_iff in Hi; tauto.
Qed.

Lemma about_with_checked_image rt prefs rec :
  about rt prefs rec -> about rt prefs (with_checked_image rec).
Proof.
  intros (name & desc & Hn & Hd & H). exists name, desc.
  split; [ | split; [ | exact H]];
    apply stripped_field_with_checked_image; try assumption;
    apply jsstring_eqb_neq; reflexivity.
Qed.

(** C1.  In a call that answers [success: true], every returned
    recommendation satisfies the invariant [about]; the elements returned
    are the images under [map] of elements [kept] of the parsed array, and
    a parsed element that fails the invariant is not among them. *)
Theorem returned_recommendations_mention_destination rt prefs p r :
  fst (generateRecommendations rt prefs p) = Return r ->
  r_success r = true ->
  (forall out, In out (recommendations r) -> about rt prefs out) /\
  exists parsed kept,
    parsed_array rt prefs p parsed /\
    survivors rt prefs parsed kept /\
    recommendations r = map with_checked_image kept /\
    (forall rec, In rec parsed -> ~ about rt prefs rec -> ~ In rec kept).
Proof.
  intros Hr Hs.
  destruct (recs_success_inv _ _ _ Hr Hs) as (parsed & kept & Hp & Hf & Hm).
  destruct (filterM_inv _ _ Hf) as [Hsub Hk].
  split.
  - intros out Hin. rewrite Hm in Hin. apply in_map_iff in Hin as (rec & <- & Hin).
    apply about_with_checked_image, keeps_true_about, Hk, Hin.
  - exists parsed, kept. repeat split; try assumption.
    intros rec _ Hn Hin. apply Hn, keeps_true_about, Hk, Hin.
Qed.

(** C10.  In a call that answers [success: true], the returned list
    pairs off, in order, with a subsequence of the parsed array; each
    returned element has the fields of its parsed element, [image] apart,
    which is the parsed one or the placeholder. *)
Theorem only_image_is_rewritten rt prefs p r :
  fst (generateRecommendations rt prefs p) = Return r ->
  r_success r = true ->
  exists parsed kept,
    parsed_array rt prefs p parsed /\
    survivors rt prefs parsed kept /\
    Subseq kept parsed /\
    Forall2 same_but_image kept (recommendations r).
Proof.
  intros Hr Hs.
  destruct (recs_success_inv _ _ _ Hr Hs) as (parsed & kept & Hp & Hf & Hm).
  destruct (filterM_inv _ _ Hf) as [Hsub _].
  exists parsed, kept. repeat split; try assumption.
  rewrite Hm. clear. induction kept as [| rec kept IH]; cbn; constructor.
  - split.
    + intros key Hne. apply field_with_checked_image. exact Hne.
    + rewrite image_of_with_checked_image.
      destruct (isValidImage (image_of rec)); [left | right]; reflexivity.
  - exact IH.
Qed.

Lemma sample_call_succeeds :
  fst (generateRecommendations (Samples.runtime_answering Samples.two_spots)
         Samples.prefs_kyoto Samples.with_key) =
    Return {| r_success := true;
              recommendations :=
                [Samples.spot Samples.kinkakuji (lit "A golden pavilion")
                   (lit "https://example.com/kinkaku.JPG")];
              r_error := None |}.
Proof. vm_compute. reflexivity. Qed.

Lemma returned_recommendations_mention_destination_witness :
  let rt := Samples.runtime_answering Samples.two_spots in
  let r := {| r_success := true;
              recommendations :=
                [Samples.spot Samples.kinkakuji (lit "A golden pavilion")
                   (lit "https://example.com/kinkaku.JPG")];
              r_error := None |} in
  (forall out, In out (recommendations r) -> about rt Samples.prefs_kyoto out) /\
  exists parsed kept,
    parsed_array rt Samples.prefs_kyoto Samples.with_key parsed /\
    survivors rt Samples.prefs_kyoto parsed kept /\
    recommendations r = map with_checked_image kept /\
    (forall rec, In rec parsed -> ~ about rt Samples.prefs_kyoto rec ->
                 ~ In rec kept).
Proof.
  intros rt r.
  apply (@returned_recommendations_mention_destination rt Samples.prefs_kyoto
           Samples.with_key r); vm_compute; reflexivity.
Defined.

Lemma only_image_is_rewritten_witness :
  let rt := Samples.runtime_answering Samples.two_spots in
  let r := {| r_success := true;
              recommendations :=
                [Samples.spot Samples.kinkakuji (lit "A golden pavilion")
                   (lit "https://example.com/kinkaku.JPG")];
              r_error := None |} in
  exists parsed kept,
    parsed_array rt Samples.prefs_kyoto Samples.with_key parsed /\
    survivors rt Samples.prefs_kyoto parsed kept /\
    Subseq kept parsed /\
    Forall2 same_but_image kept (recommendations r).
Proof.
  intros rt r.
  apply (@only_image_is_rewritten rt Samples.prefs_kyoto Samples.with_key r);
    vm_compute; reflexivity.
Defined.

End RecsFacts.

(* ================================================================= *)
(** ** The matcher against the language of a pattern *)

Module RegexFacts.
Import JS Regex Props JSFacts.

Section Matcher.
Variable A : Type.
Variable icase : bool.
Implicit Types (k : cont A) (s rest : jsstring) (cs : captures).

Lemma star_greedy_sound p k s cs a :
  star_greedy p k s cs = Some a ->
  exists s1 s2,
    s = s1 ++ s2 /\ Forall (fun x => in_class p x = true) s1 /\
    k s2 cs = Some a.
Proof.
  induction s as [| x s IH]; cbn; intros H.
  - exists [], []. auto.
  - destruct (in_class p x) eqn:Hx.
    + destruct (star_greedy p k s cs) as [a' | ] eqn:E.
      * injection H as ->.
        destruct (IH eq_refl) as (s1 & s2 & -> & Hf & Hk).
        exists (x :: s1), s2. auto.
      * exists [], (x :: s). auto.
    + exists [], (x :: s). auto.
Qed.

Lemma star_lazy_sound p k s cs a :
  star_lazy p k s cs = Some a ->
  exists s1 s2,
    s = s1 ++ s2 /\ Forall (fun x => in_class p x = true) s1 /\
    k s2 cs = Some a.
Proof.
  induction s as [| x s IH]; cbn; intros H.
  - destruct (k [] cs) eqn:E; [ | discriminate].
    exists [], []. rewrite E. auto.
  - destruct (k (x :: s) cs) eqn:E.
    + exists [], (x :: s). rewrite E. auto.
    + destruct (in_class p x) eqn:Hx; [ | discriminate].
      destruct (IH H) as (s1 & s2 & -> & Hf & Hk).
      exists (x :: s1), s2. auto.
Qed.

(** Soundness: a successful run consumed a string of the language and
    handed the rest to its continuation. *)
Lemma run_sound r : forall k s cs a,
  run icase r k s cs = Some a ->
  exists s1 s2 cs',
    s = s1 ++ s2 /\ Lang icase r s1 s2 /\ k s2 cs' = Some a.
Proof.
  induction r as [c | p | r1 IH1 r2 IH2 | r1 IH1 r2 IH2 | p | p
                 | r IH | i r IH | | ]; intros k s cs a H; cbn in H.
  - destruct s as [| x s]; [discriminate | ].
    destruct (chr_eq icase c x) eqn:E; [ | discriminate].
    exists [x], s, cs. cbn. eauto.
  - destruct s as [| x s]; [discriminate | ].
    destruct (in_class p x) eqn:E; [ | discriminate].
    exists [x], s, cs. cbn. eauto.
  - destruct (IH1 _ _ _ _ H) as (s1 & t & cs1 & -> & L1 & H2).
    destruct (IH2 _ _ _ _ H2) as (s2 & s3 & cs2 & -> & L2 & H3).
    exists (s1 ++ s2), s3, cs2. rewrite <- app_assoc.
    split; [reflexivity | split; [ | exact H3]].
    cbn. exists s1, s2. auto.
  - destruct (run icase r1 k s cs) as [a' | ] eqn:E.
    + injection H as ->.
      destruct (IH1 _ _ _ _ E) as (s1 & s2 & cs' & -> & L & Hk).
      exists s1, s2, cs'. cbn. auto.
    + destruct (IH2 _ _ _ _ H) as (s1 & s2 & cs' & -> & L & Hk).
      exists s1, s2, cs'. cbn. auto.
  - destruct (star_greedy_sound _ _ _ _ H) as (s1 & s2 & -> & Hf & Hk).
    exists s1, s2, cs. cbn. auto.
  - destruct (star_lazy_sound _ _ _ _ H) as (s1 & s2 & -> & Hf & Hk).
    exists s1, s2, cs. cbn. auto.
  - destruct (run icase r k s cs) as [a' | ] eqn:E.
    + injection H as ->.
      destruct (IH _ _ _ _ E) as (s1 & s2 & cs' & -> & L & Hk).
      exists s1, s2, cs'. cbn. auto.
    + exists [], s, cs. cbn. auto.
  - destruct (IH _ _ _ _ H) as (s1 & s2 & cs' & -> & L & Hk).
    exists s1, s2, ((i, firstn (length (s1 ++ s2) - length s2) (s1 ++ s2)) :: cs').
    cbn. auto.
  - destruct s; [ | discriminate]. exists [], [], cs. cbn. auto.
  - exists [], s, cs. cbn. auto.
Qed.

Lemma star_greedy_complete p k s1 s2 :
  Forall (fun x => in_class p x = true) s1 ->
  (forall cs, k s2 cs <> None) ->
  forall cs, star_greedy p k (s1 ++ s2) cs <> None.
Proof.
  intros Hf Hk cs. induction Hf as [| x s1 Hx _ IH]; cbn.
  - destruct s2 as [| y s2]; cbn; [apply Hk | ].
    destruct (in_class p y); [ | apply Hk].
    destruct (star_greedy p k s2 cs); [discriminate | apply Hk].
  - rewrite Hx. destruct (star_greedy p k (s1 ++ s2) cs);
      [discriminate | contradiction].
Qed.

Lemma star_lazy_complete p k s1 s2 :
  Forall (fun x => in_class p x = true) s1 ->
  (forall cs, k s2 cs <> None) ->
  forall cs, star_lazy p k (s1 ++ s2) cs <> None.
Proof.
  intros Hf Hk cs. induction Hf as [| x s1 Hx _ IH].
  - cbn [app]. destruct s2 as [| y s2]; cbn;
      (destruct (k _ cs) eqn:E; [discriminate | exfalso; exact (Hk _ E)]).
  - cbn. destruct (k (x :: s1 ++ s2) cs); [discriminate | ].
    rewrite Hx. exact IH.
Qed.

(** Completeness: where the language offers a way through and the
    continuation accepts its end, the run finds some match. *)
Lemma run_complete r : forall k s1 s2,
  Lang icase r s1 s2 ->
  (forall cs, k s2 cs <> None) ->
  forall cs, run icase r k (s1 ++ s2) cs <> None.
Proof.
  induction r as [c | p | r1 IH1 r2 IH2 | r1 IH1 r2 IH2 | p | p
                 | r IH | i r IH | | ]; intros k s1 s2 L Hk cs; cbn in L |- *.
  - destruct L as (x & -> & E). cbn. rewrite E. apply Hk.
  - destruct L as (x & -> & E). cbn. rewrite E. apply Hk.
  - destruct L as (a & b & -> & L1 & L2). rewrite <- app_assoc.
    apply IH1; [exact L1 | ]. intros cs'. apply IH2; assumption.
  - destruct (run icase r1 k (s1 ++ s2) cs) eqn:E; [discriminate | ].
    destruct L as [L | L]; [ | apply IH2; assumption].
    exfalso. exact (IH1 _ _ _ L Hk cs E).
  - apply star_greedy_complete; assumption.
  - apply star_lazy_complete; assumption.
  - destruct (run icase r k (s1 ++ s2) cs) eqn:E; [discriminate | ].
    destruct L as [-> | L]; [apply Hk | ].
    exfalso. exact (IH _ _ _ L Hk cs E).
  - apply IH; [exact L | ]. intros cs'. apply Hk.
  - destruct L as [-> ->]. cbn. apply Hk.
  - subst s1. apply Hk.
Qed.
End Matcher.

Lemma firstn_app_sub {B} (a b : list B) :
  firstn (length (a ++ b) - length b) (a ++ b) = a.
Proof.
  rewrite length_app.
  replace (length a + length b - length b)%nat with (length a + 0)%nat by lia.
  rewrite firstn_app_2, firstn_O. apply app_nil_r.
Qed.

Lemma match_here_sound icase r s m :
  match_here icase r s = Some m ->
  exists post, s = matched m ++ post /\ Lang icase r (matched m) post.
Proof.
  unfold match_here. intros H.
  destruct (run_sound _ _ _ _ _ H) as (s1 & s2 & cs' & -> & L & Hk).
  injection Hk as <-. cbn. rewrite firstn_app_sub. eauto.
Qed.

(** A match found is a string of the language somewhere in the input. *)
Lemma exec_sound icase r s m :
  exec icase r s = Some m ->
  exists pre post,
    s = pre ++ matched m ++ post /\ Lang icase r (matched m) post.
Proof.
  induction s as [| x s IH]; cbn; intros H.
  - destruct (match_here icase r []) eqn:E; [ | discriminate].
    injection H as ->. destruct (match_here_sound _ _ _ E) as (post & Hs & L).
    exists [], post. auto.
  - destruct (match_here icase r (x :: s)) eqn:E.
    + injection H as ->. destruct (match_here_sound _ _ _ E) as (post & Hs & L).
      exists [], post. auto.
    + destruct (IH H) as (pre & post & -> & L). exists (x :: pre), post. auto.
Qed.

Lemma exec_complete icase r pre m post :
  Lang icase r m post -> exec icase r (pre ++ m ++ post) <> None.
Proof.
  intros L. induction pre as [| x pre IH].
  - cbn [app].
    assert (H : match_here icase r (m ++ post) <> None).
    { unfold match_here. apply run_complete; [exact L | discriminate]. }
    destruct (m ++ post); cbn;
      (destruct (match_here icase r _); [discriminate | contradiction]).
  - cbn. destruct (match_here icase r (x :: pre ++ m ++ post));
      [discriminate | exact IH].
Qed.

(** [test] decides whether the input holds a string of the language. *)
Lemma test_iff icase r s :
  test icase r s = true <->
  exists pre m post, s = pre ++ m ++ post /\ Lang icase r m post.
Proof.
  unfold test. split.
  - destruct (exec icase r s) as [m | ] eqn:E; [ | discriminate].
    intros _. destruct (exec_sound _ _ _ E) as (pre & post & Hs & L). eauto.
  - intros (pre & m & post & -> & L).
    destruct (exec icase r _) eqn:E; [reflexivity | ].
    exfalso. exact (exec_complete _ _ pre _ _ L E).
Qed.

Lemma Lang_word icase w : forall s rest,
  Lang icase (word w) s rest <->
  Forall2 (fun c x => chr_eq icase c x = true) w s.
Proof.
  unfold word. induction w as [| c w IH]; intros s rest.
  - cbn. split; [intros ->; constructor | intros H; inversion H; reflexivity].
  - destruct w as [| c' w].
    + cbn. split.
      * intros (x & -> & E). repeat constructor. exact E.
      * intros H. inversion H as [| ? x ? t E Ht]; subst.
        inversion Ht; subst. eauto.
    + change (seq (map Chr (c :: c' :: w)))
        with (Cat (Chr c) (seq (map Chr (c' :: w)))).
      cbn [Lang]. split.
      * intros (s1 & s2 & -> & (x & -> & E) & L).
        constructor; [exact E | ]. apply (IH s2 rest). exact L.
      * intros H. inversion H as [| ? x ? t E Ht]; subst.
        exists [x], t. split; [reflexivity | split; [eauto | ]].
        apply (IH t rest). exact Ht.
Qed.

Lemma Lang_alts icase r rs : forall s rest,
  Lang icase (alts r rs) s rest <->
  exists r', In r' (r :: rs) /\ Lang icase r' s rest.
Proof.
  revert r. induction rs as [| r2 rs IH]; intros r s rest.
  - cbn. split; [eauto | intros (r' & [<- | []] & L); exact L].
  - cbn [alts Lang]. rewrite IH. split.
    + intros [L | (r' & Hin & L)]; [exists r | exists r']; cbn in *; tauto.
    + intros (r' & [<- | Hin] & L); [left; exact L | right; eauto].
Qed.

Lemma Forall2_eqb_eq (w s : jsstring) :
  Forall2 (fun c x => chr_eq false c x = true) w s -> s = w.
Proof.
  induction 1 as [| c x w s E _ IH]; [reflexivity | ].
  apply N.eqb_eq in E. cbn in E. congruence.
Qed.

(** Without the [i] flag a word matches itself only. *)
Lemma Lang_word_eq w s rest : Lang false (word w) s rest -> s = w.
Proof. intros L. apply Forall2_eqb_eq, (Lang_word false w s rest), L. Qed.

End RegexFacts.

(* ================================================================= *)
(** ** The rule on images *)

Module ImageFacts.
Import JS Regex AiService Props JSFacts RegexFacts RecsFacts.

Open Scope string_scope.
Open Scope list_scope.

(** Under the [i] flag a character that is no letter matches itself only. *)
Lemma chr_eq_symbol c x :
  (c < 65)%N -> chr_eq true c x = true <-> x = c.
Proof.
  intros Hc. unfold chr_eq, canon. cbn [andb].
  destruct (97 <=? c)%N eqn:E1; [apply N.leb_le in E1; lia | ].
  cbn [andb]. destruct ((97 <=? x)%N && (x <=? 122)%N) eqn:E2.
  - apply andb_true_iff in E2 as [H1 H2].
    apply N.leb_le in H1, H2. rewrite N.eqb_eq. lia.
  - rewrite N.eqb_eq. split; congruence.
Qed.

Lemma chr_eq_canon c x :
  chr_eq true c x = true <-> canon true c = canon true x.
Proof. unfold chr_eq. apply N.eqb_eq. Qed.

Lemma Forall2_chr_eq_same_letters w ext :
  Forall2 (fun c x => chr_eq true c x = true) w ext <-> same_letters w ext.
Proof.
  unfold same_letters. split; intros H; induction H; constructor;
    try assumption; apply chr_eq_canon; assumption.
Qed.

Lemma Lang_extension s rest :
  Lang true (alts (word (lit "jpg")) (map word (tl image_extensions))) s rest
  <-> exists w, In w image_extensions /\ same_letters w s.
Proof.
  rewrite Lang_alts.
  change (word (lit "jpg") :: map word (tl image_extensions))
    with (map word image_extensions).
  split.
  - intros (r' & Hin & L). apply in_map_iff in Hin as (w & <- & Hin).
    exists w. split; [exact Hin | ].
    apply Forall2_chr_eq_same_letters, (Lang_word true w s rest), L.
  - intros (w & Hin & Hs). exists (word w). split; [apply in_map, Hin | ].
    apply Lang_word, Forall2_chr_eq_same_letters, Hs.
Qed.

Lemma Lang_query s rest :
  Lang true (Opt (Group 2 (seq [Chr 63; Star CDot]))) s rest <->
  query_string s.
Proof.
  unfold query_string. cbn [seq Lang]. split.
  - intros [-> | (s1 & s2 & -> & (x & -> & E) & Hf)]; [left; reflexivity | ].
    right. apply chr_eq_symbol in E; [ | lia]. subst x. exists s2.
    split; [reflexivity | ].
    eapply Forall_impl; [ | exact Hf]. cbn. intros c Hc.
    apply negb_true_iff. exact Hc.
  - intros [-> | (q' & -> & Hf)]; [left; reflexivity | right].
    exists [63%N], q'. split; [reflexivity | split].
    + exists 63%N. split; reflexivity.
    + eapply Forall_impl; [ | exact Hf]. cbn. intros c Hc.
      apply negb_true_iff. exact Hc.
Qed.

(** The pattern of [isValidImage], read as a property of the string. *)
Lemma image_re_iff u :
  test true image_re u = true <-> has_image_suffix u.
Proof.
  rewrite test_iff. unfold has_image_suffix, image_re.
  change (seq [Chr 46;
               Group 1 (alts (word (lit "jpg")) (map word (tl image_extensions)));
               Opt (Group 2 (seq [Chr 63; Star CDot])); Eos])
    with (Cat (Chr 46)
            (Cat (Group 1 (alts (word (lit "jpg"))
                                (map word (tl image_extensions))))
               (Cat (Opt (Group 2 (seq [Chr 63; Star CDot]))) Eos))).
  split.
  - intros (pre & m & post & -> & L).
    destruct L as (d & m1 & -> & (x & -> & Ex) & ext & m2 & -> & Lext & q & e
                   & -> & Lq & -> & ->).
    apply chr_eq_symbol in Ex; [ | lia]. subst x.
    cbn [Lang] in Lext. apply Lang_extension in Lext as (w & Hin & Hs).
    apply Lang_query in Lq.
    exists pre, w, ext, q. rewrite !app_nil_r. auto.
  - intros (pre & w & ext & q & -> & Hin & Hs & Hq).
    exists pre, ([46%N] ++ ext ++ q), []. rewrite app_nil_r.
    split; [reflexivity | ].
    exists [46%N], (ext ++ q). split; [reflexivity | split].
    + exists 46%N. split; reflexivity.
    + exists ext, q. split; [reflexivity | split].
      * cbn [Lang]. apply Lang_extension. eauto.
      * exists q, []. rewrite app_nil_r. split; [reflexivity | split].
        -- apply Lang_query. exact Hq.
        -- split; reflexivity.
Qed.

(** [isValidImage] decides the rule. *)
Lemma isValidImage_iff v : isValidImage v = true <-> valid_image v.
Proof.
  unfold valid_image. split.
  - destruct v as [| | b | x | u | l | f]; cbv beta iota delta [isValidImage];
      try discriminate.
    intros H. apply andb_true_iff in H as [H H4].
    apply andb_true_iff in H as [H H3].
    apply andb_true_iff in H as [H1 H2].
    exists u. split; [reflexivity | ].
    apply startsWith_inv in H1. apply image_re_iff in H2.
    apply Nat.leb_le in H3, H4. auto.
  - intros (u & -> & H1 & H2 & H3 & H4). cbv beta iota delta [isValidImage].
    apply startsWith_iff in H1. apply image_re_iff in H2.
    apply Nat.leb_le in H3, H4. rewrite H1, H2, H3, H4. reflexivity.
Qed.

Lemma with_checked_image_checked rec :
  image_checked rec (with_checked_image rec).
Proof.
  unfold image_checked. rewrite image_of_with_checked_image.
  destruct (isValidImage (image_of rec)) eqn:E.
  - split; [reflexivity | ]. intros Hn. apply isValidImage_iff in E. tauto.
  - split; [ | reflexivity]. intros Hv. apply isValidImage_iff in Hv. congruence.
Qed.

(** C4, as amended.  In a call that answers [success: true], each
    returned element keeps the [image] of its parsed element when that is
    a string that starts with [https://], ends with a dot, one of the
    extensions jpg, jpeg, png, webp, gif, bmp, svg in either case and an
    optional query string, and has 15 to 300 code units; otherwise its
    [image] is the placeholder URL. *)
Theorem invalid_image_is_replaced rt prefs p r :
  fst (generateRecommendations rt prefs p) = Return r ->
  r_success r = true ->
  exists parsed kept,
    parsed_array rt prefs p parsed /\
    survivors rt prefs parsed kept /\
    Forall2 image_checked kept (recommendations r).
Proof.
  intros Hr Hs.
  destruct (recs_success_inv _ _ _ Hr Hs) as (parsed & kept & Hp & Hf & Hm).
  exists parsed, kept. repeat split; try assumption.
  rewrite Hm. clear. induction kept as [| rec kept IH]; cbn; constructor;
    [apply with_checked_image_checked | exact IH].
Qed.

Lemma invalid_image_is_replaced_witness :
  let rt := Samples.runtime_answering Samples.two_spots in
  let r := {| r_success := true;
              recommendations :=
                [Samples.spot Samples.kinkakuji (lit "A golden pavilion")
                   (lit "https://example.com/kinkaku.JPG")];
              r_error := None |} in
  exists parsed kept,
    parsed_array rt Samples.prefs_kyoto Samples.with_key parsed /\
    survivors rt Samples.prefs_kyoto parsed kept /\
    Forall2 image_checked kept (recommendations r).
Proof.
  intros rt r.
  apply (@invalid_image_is_replaced rt Samples.prefs_kyoto Samples.with_key r);
    vm_compute; reflexivity.
Defined.

(** C4, as stated, fails: an extension in upper case does not match the
    rule as the specification writes it, and the image is returned as it
    is, not replaced. *)
Lemma uppercase_extension_is_kept :
  ~ (forall rec,
       spec_image_rule (image_of rec) = false ->
       image_of (with_checked_image rec) = JStr placeholder_image).
Proof.
  intros H.
  specialize (H (Samples.spot Samples.kinkakuji (lit "A golden pavilion")
                   (lit "https://example.com/kinkaku.JPG")) eq_refl).
  vm_compute in H. discriminate H.
Qed.

End ImageFacts.

(* ================================================================= *)
(** ** Extraction of the JSON text *)

Module ExtractFacts.
Import JS Regex AiService Props JSFacts RegexFacts.

Open Scope string_scope.
Open Scope list_scope.

Section Priorities.
Variable A : Type.
Implicit Types (k : cont A) (s : jsstring) (cs : captures).

(** A greedy star prefers the longer run. *)
Lemma star_greedy_app p k ws s cs a :
  Forall (fun x => in_class p x = true) ws ->
  star_greedy p k s cs = Some a ->
  star_greedy p k (ws ++ s) cs = Some a.
Proof.
  intros Hf H. induction Hf as [| x ws Hx _ IH]; cbn; [exact H | ].
  rewrite Hx, IH. reflexivity.
Qed.

(** A greedy star whose continuation fails after every character
    taken takes none. *)
Lemma star_greedy_last p k s cs :
  (forall u t, s = u ++ t -> u <> [] -> k t cs = None) ->
  star_greedy p k s cs = k s cs.
Proof.
  induction s as [| x s IH]; intros H; cbn; [reflexivity | ].
  destruct (in_class p x); [ | reflexivity].
  rewrite IH.
  - rewrite (H [x] s eq_refl); [reflexivity | discriminate].
  - intros u t -> Hu. apply (H (x :: u) t); [reflexivity | discriminate].
Qed.

(** A greedy star fails when its continuation fails after every run
    it can take. *)
Lemma star_greedy_fail p k s cs :
  (forall u t, s = u ++ t -> Forall (fun x => in_class p x = true) u ->
               k t cs = None) ->
  star_greedy p k s cs = None.
Proof.
  induction s as [| x s IH]; intros H; cbn.
  - apply (H [] []); [reflexivity | constructor].
  - destruct (in_class p x) eqn:Hx.
    + rewrite IH.
      * apply (H [] (x :: s)); [reflexivity | constructor].
      * intros u t -> Hu. apply (H (x :: u) t); [reflexivity | ].
        constructor; assumption.
    + apply (H [] (x :: s)); [reflexivity | constructor].
Qed.

(** A lazy star stops at the first place its continuation accepts. *)
Lemma star_lazy_first p k a s cs :
  Forall (fun x => in_class p x = true) a ->
  (forall u t, a = u ++ t -> t <> [] -> k (t ++ s) cs = None) ->
  star_lazy p k (a ++ s) cs = star_lazy p k s cs.
Proof.
  intros Hf. induction Hf as [| x a Hx _ IH]; intros H; [reflexivity | ].
  pose proof (H [] (x :: a) eq_refl) as H0. cbn in H0 |- *.
  rewrite H0; [ | discriminate].
  rewrite Hx. apply IH.
  intros u t -> Ht. apply (H (x :: u) t); [reflexivity | exact Ht].
Qed.

Lemma star_lazy_here p k s cs a :
  k s cs = Some a -> star_lazy p k s cs = Some a.
Proof. intros H. destruct s; cbn; rewrite H; reflexivity. Qed.

(** A literal word consumes itself. *)
Lemma run_word_app w : forall k rest cs,
  run false (word w) k (w ++ rest) cs = k rest cs.
Proof.
  unfold word. induction w as [| c w IH]; intros k rest cs; [reflexivity | ].
  destruct w as [| c' w].
  - cbn. unfold chr_eq. cbn. rewrite N.eqb_refl. reflexivity.
  - change (seq (map Chr (c :: c' :: w)))
      with (Cat (Chr c) (seq (map Chr (c' :: w)))).
    cbn [run app]. unfold chr_eq. cbn [canon andb]. rewrite N.eqb_refl.
    apply IH.
Qed.

Lemma run_word_app_some w k rest cs a :
  k rest cs = Some a -> run false (word w) k (w ++ rest) cs = Some a.
Proof. intros H. rewrite run_word_app. exact H. Qed.
End Priorities.

(** A pattern that starts with a word does not match where the input
    does not start with it. *)
Lemma match_here_word_fail w r s :
  startsWith s w = false -> match_here false (Cat (word w) r) s = None.
Proof.
  intros Hs. destruct (match_here false (Cat (word w) r) s) as [m | ] eqn:E;
    [ | reflexivity].
  destruct (match_here_sound _ _ _ E) as (post & -> & s1 & s2 & Hm & L1 & _).
  apply Lang_word_eq in L1. rewrite Hm, L1, <- app_assoc, startsWith_app in Hs.
  discriminate Hs.
Qed.

Lemma run_word_fail {A} w (k : cont A) s cs :
  startsWith s w = false -> run false (word w) k s cs = None.
Proof.
  intros Hs. destruct (run false (word w) k s cs) as [a | ] eqn:E;
    [ | reflexivity].
  destruct (run_sound _ _ _ _ _ E) as (s1 & s2 & cs' & -> & L & _).
  apply Lang_word_eq in L. subst s1. rewrite startsWith_app in Hs.
  discriminate Hs.
Qed.

Lemma star_greedy_stop {A} p (k : cont A) s cs :
  (forall x r, s = x :: r -> in_class p x = false) ->
  star_greedy p k s cs = k s cs.
Proof.
  intros H. destruct s as [| x s]; cbn; [reflexivity | ].
  rewrite (H x s eq_refl). reflexivity.
Qed.

Lemma exec_here icase r s m :
  match_here icase r s = Some m -> exec icase r s = Some m.
Proof. intros H. destruct s; cbn; rewrite H; reflexivity. Qed.

(** The search passes over the start positions at which the pattern
    does not match. *)
Lemma exec_skip_prefix icase r pre s :
  (forall u t, pre = u ++ t -> t <> [] -> match_here icase r (t ++ s) = None) ->
  exec icase r (pre ++ s) = exec icase r s.
Proof.
  induction pre as [| x pre IH]; intros H; [reflexivity | ].
  pose proof (H [] (x :: pre) eq_refl) as H0. cbn in H0 |- *.
  rewrite H0; [ | discriminate].
  apply IH. intros u t -> Ht. apply (H (x :: u) t); [reflexivity | exact Ht].
Qed.

Lemma startsWith_app_short (a b p : jsstring) :
  startsWith (a ++ b) p = true -> (length p <= length a)%nat ->
  startsWith a p = true.
Proof.
  revert a. induction p as [| c p IH]; intros a H Hl; [reflexivity | ].
  destruct a as [| x a]; cbn in Hl; [lia | ].
  cbn in H |- *. apply andb_true_iff in H as [-> H]. cbn.
  apply IH; [exact H | lia].
Qed.

(** An occurrence of [w] that starts in [t], before a text that starts
    with all of [w] but its last character [c], lies in [t] and that
    part of the text. *)
Lemma startsWith_overlap (t w rest : jsstring) c :
  t <> [] ->
  startsWith (t ++ (w ++ [c]) ++ rest) (w ++ [c]) = true ->
  mentions (t ++ w) (w ++ [c]).
Proof.
  intros Ht H. replace (t ++ (w ++ [c]) ++ rest)
    with ((t ++ w) ++ ([c] ++ rest)) in H by (rewrite <- !app_assoc; reflexivity).
  apply startsWith_app_short in H.
  - apply startsWith_inv in H as [r Hr]. exists [], r. exact Hr.
  - rewrite !length_app. cbn. destruct t; [congruence | cbn; lia].
Qed.

(** Before the closing fence the rest of the pattern finds nothing:
    after a piece [t] of the content and whitespace there is no fence. *)
Lemma no_fence_inside inner ws2 post u t a b :
  trimmed inner ->
  ~ mentions (inner ++ ws2 ++ lit "``") ticks ->
  inner = u ++ t -> t <> [] ->
  t ++ ws2 ++ ticks ++ post = a ++ b ->
  all_space a ->
  startsWith b ticks = false.
Proof.
  intros (_ & _ & Hlast) Hno -> Ht Hsplit Ha.
  destruct (startsWith b ticks) eqn:E; [exfalso | reflexivity].
  destruct (exists_last Ht) as (t' & c & ->).
  assert (Hc : is_space c = false).
  { apply (Hlast (u ++ t')). rewrite app_assoc. reflexivity. }
  assert (Hb : exists l, t' = a ++ l /\ b = l ++ [c] ++ ws2 ++ ticks ++ post).
  { rewrite <- app_assoc in Hsplit.
    apply app_eq_app in Hsplit as [l [[H1 H2] | [H1 H2]]].
    - exists l. split; [exact H1 | exact H2].
    - destruct l as [| c' l].
      + exists []. rewrite app_nil_r in H1. subst a. rewrite app_nil_r.
        split; [reflexivity | ]. cbn in H2. symmetry. exact H2.
      + cbn in H2. injection H2 as <- _. subst a. unfold all_space in Ha.
        apply Forall_app in Ha as [_ Ha]. inversion Ha; congruence. }
  destruct Hb as (l & -> & ->).
  apply Hno.
  replace (l ++ [c] ++ ws2 ++ ticks ++ post)
    with ((l ++ [c] ++ ws2 ++ lit "``") ++ ([96%N] ++ post)) in E
    by (rewrite <- !app_assoc; reflexivity).
  apply startsWith_app_short in E.
  - apply startsWith_inv in E as [r Hr]. exists (u ++ a), r.
    rewrite <- !app_assoc. do 2 f_equal. exact Hr.
  - rewrite !length_app. cbn. lia.
Qed.

(** The pattern after the opening fence, on the text after it. *)
Lemma fence_tail_run {A} (k : cont A) ws1 inner ws2 post cs a :
  all_space ws1 -> all_space ws2 -> trimmed inner ->
  ~ mentions (inner ++ ws2 ++ lit "``") ticks ->
  k post ((1%nat, inner) :: cs) = Some a ->
  run false
    (seq [Star CSpace; Group 1 (LazyStar CAny); Star CSpace; word ticks])
    k (ws1 ++ inner ++ ws2 ++ ticks ++ post) cs = Some a.
Proof.
  intros H1 H2 Ht Hno Hk.
  change (seq [Star CSpace; Group 1 (LazyStar CAny); Star CSpace; word ticks])
    with (Cat (Star CSpace)
            (Cat (Group 1 (LazyStar CAny)) (Cat (Star CSpace) (word ticks)))).
  cbn [run]. apply star_greedy_app; [exact H1 | ].
  rewrite star_greedy_stop.
  2:{ intros x r E. destruct Ht as (Hne & Hfirst & _).
      destruct inner as [| c inner]; [congruence | ].
      cbn in E. injection E as <- _. cbn. apply (Hfirst c inner eq_refl). }
  cbn [run]. rewrite star_lazy_first.
  - apply star_lazy_here. rewrite firstn_app_sub.
    apply star_greedy_app; [exact H2 | ].
    rewrite star_greedy_stop.
    + apply run_word_app_some. exact Hk.
    + intros x r E. cbn in E. injection E as <- _. reflexivity.
  - apply Forall_forall. reflexivity.
  - intros u t Hu Hne. cbv beta. apply star_greedy_fail.
    intros a0 b Hsplit Ha. apply run_word_fail.
    eapply no_fence_inside; eassumption.
Qed.

(** The first fence labelled [json] is found, and its group is the
    content. *)
Lemma fence_exec pre ws1 inner ws2 post :
  ~ mentions (pre ++ lit "```jso") json_fence ->
  all_space ws1 -> all_space ws2 -> trimmed inner ->
  ~ mentions (inner ++ ws2 ++ lit "``") ticks ->
  exec false fence_re
    (pre ++ json_fence ++ ws1 ++ inner ++ ws2 ++ ticks ++ post) =
    Some (MatchResult (json_fence ++ ws1 ++ inner ++ ws2 ++ ticks)
            [(1%nat, inner)]).
Proof.
  intros Hpre H1 H2 Ht Hno.
  change fence_re with
    (Cat (word json_fence)
       (seq [Star CSpace; Group 1 (LazyStar CAny); Star CSpace; word ticks])).
  rewrite exec_skip_prefix.
  - apply exec_here. unfold match_here. cbn [run].
    rewrite run_word_app. apply fence_tail_run; try assumption.
    f_equal. f_equal.
    replace (json_fence ++ ws1 ++ inner ++ ws2 ++ ticks ++ post)
      with ((json_fence ++ ws1 ++ inner ++ ws2 ++ ticks) ++ post)
      by (rewrite <- !app_assoc; reflexivity).
    apply firstn_app_sub.
  - intros u t -> Hne. apply match_here_word_fail.
    destruct (startsWith _ json_fence) eqn:E; [exfalso | reflexivity].
    apply Hpre.
    destruct (@startsWith_overlap t (lit "```jso") (ws1 ++ inner ++ ws2 ++ ticks ++ post) 110%N Hne)
      as (p1 & p2 & Hm).
    + exact E.
    + exists (u ++ p1), p2. rewrite <- !app_assoc. f_equal. exact Hm.
Qed.

Lemma fence_exec_none text :
  ~ has_json_fence text -> exec false fence_re text = None.
Proof.
  intros Hno. destruct (exec false fence_re text) as [m | ] eqn:E;
    [exfalso | reflexivity].
  destruct (exec_sound _ _ _ E) as (pre & post & -> & L).
  change fence_re with
    (Cat (word json_fence)
       (Cat (Star CSpace)
          (Cat (Group 1 (LazyStar CAny)) (Cat (Star CSpace) (word ticks))))) in L.
  cbn [Lang] in L.
  destruct L as (s1 & r1 & Hm & L1 & s2 & r2 & -> & _ & s3 & r3 & -> & _
                 & s4 & s5 & -> & _ & L5).
  apply Lang_word_eq in L1, L5. subst s1 s5.
  apply Hno. exists pre, (s2 ++ s3 ++ s4), post.
  rewrite Hm, <- !app_assoc. reflexivity.
Qed.

(** The pattern between two delimiters finds the widest such span. *)
Lemma delimited_exec o c text m :
  delimited o c text m ->
  exec false (seq [Chr o; Star CAny; Chr c]) text = Some (MatchResult m []).
Proof.
  intros (pre & mid & post & -> & Hpre & Hpost & ->).
  change (seq [Chr o; Star CAny; Chr c])
    with (Cat (Chr o) (Cat (Star CAny) (Chr c))).
  assert (Heq : forall x, chr_eq false x x = true)
    by (intros x; apply N.eqb_refl).
  assert (Hne : forall x y, x <> y -> chr_eq false x y = false)
    by (intros x y Hxy; apply N.eqb_neq; exact Hxy).
  rewrite exec_skip_prefix.
  - apply exec_here. unfold match_here. cbn [run app]. rewrite Heq.
    apply star_greedy_app; [apply Forall_forall; reflexivity | ].
    rewrite star_greedy_last.
    + rewrite Heq. f_equal. f_equal.
      replace (o :: mid ++ c :: post) with (([o] ++ mid ++ [c]) ++ post)
        by (cbn; rewrite <- app_assoc; reflexivity).
      apply firstn_app_sub.
    + intros u t E Hu. destruct u as [| x u]; [congruence | ].
      cbn in E. injection E as <- ->.
      destruct t as [| y t]; [reflexivity | ].
      rewrite Hne; [reflexivity | ].
      intros <-. apply Hpost. apply in_or_app. right. left. reflexivity.
  - intros u t -> Ht. unfold match_here. destruct t as [| x t]; [congruence | ].
    cbn [run app]. rewrite Hne; [reflexivity | ].
    intros <-. apply Hpre. apply in_or_app. right. left. reflexivity.
Qed.

Lemma delimited_exec_none o c text :
  ~ has_delimited o c text ->
  exec false (seq [Chr o; Star CAny; Chr c]) text = None.
Proof.
  intros Hno.
  destruct (exec false (seq [Chr o; Star CAny; Chr c]) text) as [m | ] eqn:E;
    [exfalso | reflexivity].
  destruct (exec_sound _ _ _ E) as (pre & post & -> & L).
  change (seq [Chr o; Star CAny; Chr c])
    with (Cat (Chr o) (Cat (Star CAny) (Chr c))) in L.
  cbn [Lang] in L.
  destruct L as (s1 & r1 & Hm & (x & -> & Ex) & s2 & s3 & -> & _ & (y & -> & Ey)).
  apply N.eqb_eq in Ex, Ey. cbn in Ex, Ey. subst x y.
  apply Hno. exists pre, s2, post. rewrite Hm, <- !app_assoc. reflexivity.
Qed.

Lemma jsonString_of_fence m0 inner text :
  inner <> [] ->
  jsonString_of (Some (MatchResult m0 [(1%nat, inner)])) text = inner.
Proof. intros H. destruct inner; [congruence | reflexivity]. Qed.

(** [trimmed], by computation on a given string. *)
Lemma trimmed_by_computation inner :
  match inner with
  | [] => false
  | c :: _ => negb (is_space c) && negb (is_space (last inner 0%N))
  end = true ->
  trimmed inner.
Proof.
  destruct inner as [| c inner]; [discriminate | ]. intros H.
  apply andb_true_iff in H as [H1 H2]. apply negb_true_iff in H1, H2.
  repeat split.
  - discriminate.
  - intros c' r E. injection E as <- _. exact H1.
  - intros r c' E. rewrite E, last_last in H2. exact H2.
Qed.

(** C7, as amended.  On every response text: when the text holds a
    fence labelled [json] whose content, trimmed of whitespace, is not
    empty, both extractors return that content; when it holds no fence
    labelled [json], the plan extractor returns the span from the first
    opening brace to the last closing brace, the recommendation extractor
    the span from the first opening bracket to the last closing bracket,
    and each returns the whole text when there is no such span.  (A fence
    without the label is not looked for.) *)
Theorem extraction_cases text :
  (forall inner,
     json_fenced text inner ->
     extractPlanJson text = inner /\ extractRecommendationsJson text = inner) /\
  (~ has_json_fence text ->
   (forall m, delimited 123 125 text m -> extractPlanJson text = m) /\
   (forall m, delimited 91 93 text m -> extractRecommendationsJson text = m) /\
   (~ has_delimited 123 125 text -> extractPlanJson text = text) /\
   (~ has_delimited 91 93 text -> extractRecommendationsJson text = text)).
Proof.
  unfold extractPlanJson, extractRecommendationsJson, String_match.
  split.
  - intros inner (pre & ws1 & ws2 & post & -> & Hpre & H1 & H2 & Ht & Hno).
    rewrite (@fence_exec pre ws1 inner ws2 post Hpre H1 H2 Ht Hno). cbn [match_or].
    destruct Ht as (Hne & _).
    split; apply jsonString_of_fence; exact Hne.
  - intros Hnf. rewrite (fence_exec_none Hnf). cbn [match_or].
    unfold object_re, array_re. repeat split.
    + intros m Hm. rewrite (delimited_exec Hm). reflexivity.
    + intros m Hm. rewrite (delimited_exec Hm). reflexivity.
    + intros Hn. rewrite (delimited_exec_none Hn). reflexivity.
    + intros Hn. rewrite (delimited_exec_none Hn). reflexivity.
Qed.

Lemma extraction_cases_witness :
  extractPlanJson (Samples.fenced_reply Samples.two_spots)
    = Samples.render Samples.two_spots /\
  extractRecommendationsJson (Samples.fenced_reply Samples.two_spots)
    = Samples.render Samples.two_spots.
Proof.
  apply (proj1 (extraction_cases (Samples.fenced_reply Samples.two_spots))).
  exists (lit "Here you are:" ++ [10%N]), [10%N], [10%N], [].
  split; [reflexivity | ].
  split; [apply includes_false_iff; vm_compute; reflexivity | ].
  split; [repeat constructor | ].
  split; [repeat constructor | ].
  split; [apply trimmed_by_computation; vm_compute; reflexivity | ].
  apply includes_false_iff. vm_compute. reflexivity.
Defined.

(** A fence labelled [json] with nothing in it: group 1 is the empty
    string, which [||] passes over, and the whole fenced block comes out. *)
Example empty_fence_returns_the_fence :
  extractPlanJson (lit "```json" ++ [10%N] ++ lit "```") =
    lit "```json" ++ [10%N] ++ lit "```".
Proof. vm_compute. reflexivity. Qed.

(** C7, as stated, fails: a fence without the label is passed over, and
    the brace pattern takes a wider span than the content of the fence. *)
Lemma unlabelled_fence_is_passed_over :
  ~ (forall text inner, spec_fenced text inner -> extractPlanJson text = inner).
Proof.
  intros H.
  specialize (H (lit "```" ++ [10%N] ++ lit "{}" ++ [10%N]
                   ++ lit "``` Use {curly} braces.") (lit "{}")).
  assert (Hf : spec_fenced
                 (lit "```" ++ [10%N] ++ lit "{}" ++ [10%N]
                    ++ lit "``` Use {curly} braces.") (lit "{}")).
  { exists [], [], [10%N], [10%N], (lit " Use {curly} braces.").
    split; [reflexivity | ]. split; [left; reflexivity | ].
    split; repeat constructor. }
  specialize (H Hf). vm_compute in H. discriminate H.
Qed.

End ExtractFacts.

(* ================================================================= *)
(** ** Doubles that hold integers *)

Module FloatFacts.
Import JS JSMath Props.

Open Scope Z_scope.

Lemma digits2_pos_bounds p :
  2 ^ (Z.pos (digits2_pos p) - 1) <= Z.pos p < 2 ^ Z.pos (digits2_pos p).
Proof.
  induction p as [p IH | p IH | ]; cbn [digits2_pos].
  - rewrite Pos2Z.inj_succ.
    replace (Z.succ (Z.pos (digits2_pos p)) - 1) with (Z.succ (Z.pos (digits2_pos p) - 1)) by lia.
    rewrite !Z.pow_succ_r by lia. lia.
  - rewrite Pos2Z.inj_succ.
    replace (Z.succ (Z.pos (digits2_pos p)) - 1) with (Z.succ (Z.pos (digits2_pos p) - 1)) by lia.
    rewrite !Z.pow_succ_r by lia. lia.
  - cbn. lia.
Qed.

Lemma iter_xO_value p k : Z.pos (Pos.iter xO p k) = Z.pos p * 2 ^ Z.pos k.
Proof.
  induction k as [| k IH] using Pos.peano_ind.
  - cbn. lia.
  - rewrite Pos.iter_succ, Pos2Z.inj_succ, Z.pow_succ_r by lia.
    rewrite Pos2Z.inj_xO, IH. lia.
Qed.

Lemma digits2_iter_xO p k :
  digits2_pos (Pos.iter xO p k) = (digits2_pos p + k)%positive.
Proof.
  induction k as [| k IH] using Pos.peano_ind.
  - cbn. lia.
  - rewrite Pos.iter_succ. cbn [digits2_pos]. rewrite IH. lia.
Qed.

Lemma binary_round_aux_exact s m e :
  Z.pos (digits2_pos m) = 53 -> -1074 <= e <= 971 ->
  binary_round_aux prec emax s (Z.pos m) e loc_Exact = S754_finite s m e.
Proof.
  intros Hd He.
  assert (H0 : fexp prec emax (Zdigits2 (Z.pos m) + e) - e = 0).
  { cbn [Zdigits2]. rewrite Hd. unfold fexp, emin, prec, emax. lia. }
  unfold binary_round_aux, shr_fexp. rewrite H0.
  cbn [shr shr_record_of_loc shr_m loc_of_shr_record round_nearest_even].
  rewrite H0. cbn [shr shr_m].
  destruct (e <=? emax - prec) eqn:E; [reflexivity | ].
  apply Z.leb_gt in E. unfold emax, prec in E. lia.
Qed.

Lemma binary_round_small s p :
  Z.pos p < 2 ^ 53 ->
  exists m e,
    binary_round prec emax s p 0 = S754_finite s m e /\
    e <= 0 /\ Z.pos m = Z.pos p * 2 ^ (- e).
Proof.
  intros Hp. pose proof (digits2_pos_bounds p) as [Hlo _].
  assert (Hd : Z.pos (digits2_pos p) <= 53).
  { destruct (Z_le_gt_dec (Z.pos (digits2_pos p)) 53) as [H | H]; [exact H | ].
    exfalso. assert (2 ^ 53 <= 2 ^ (Z.pos (digits2_pos p) - 1))
      by (apply Z.pow_le_mono_r; lia). lia. }
  unfold binary_round.
  assert (Hf : fexp prec emax (Z.pos (digits2_pos p) + 0)
               = Z.pos (digits2_pos p) - 53).
  { unfold fexp, emin, prec, emax. lia. }
  rewrite Hf. unfold shl_align.
  destruct (Z.pos (digits2_pos p) - 53 - 0) as [| k | k] eqn:E; [ | lia | ].
  - exists p, 0. rewrite binary_round_aux_exact by lia.
    split; [reflexivity | ]. split; [lia | ]. cbn. lia.
  - exists (Pos.iter xO p k), (Z.pos (digits2_pos p) - 53).
    rewrite binary_round_aux_exact.
    + split; [reflexivity | ]. split; [lia | ].
      rewrite iter_xO_value. f_equal. f_equal. lia.
    + rewrite digits2_iter_xO, Pos2Z.inj_add. lia.
    + lia.
Qed.

Lemma SF_value_integer s m e n :
  e <= 0 -> Z.pos m = n * 2 ^ (- e) -> 
  exists q, SF_value (S754_finite s m e) = Some q /\
            (q == inject_Z (if s then - n else n))%Q.
Proof.
  intros He Hm. unfold SF_value.
  destruct (0 <=? e) eqn:E.
  - apply Z.leb_le in E. assert (e = 0) by lia. subst e.
    eexists. split; [reflexivity | ]. cbn in Hm.
    destruct s; cbn [signed]; unfold Qeq, inject_Z; cbn [Qnum Qden]; lia.
  - apply Z.leb_gt in E. eexists. split; [reflexivity | ].
    assert (0 < 2 ^ (- e)) by (apply Z.pow_pos_nonneg; lia).
    unfold Qeq, inject_Z; cbn [Qnum Qden]. rewrite Z2Pos.id by lia.
    destruct s; cbn [signed]; lia.
Qed.

Lemma of_Z_value n : 0 < Z.abs n < 2 ^ 53 -> holds_integer (of_Z n) n.
Proof.
  intros Hn. unfold holds_integer, number_value, of_Z.
  assert (Hw : 2 ^ 53 < wB) by (unfold wB; cbn; lia).
  destruct (n <? 0) eqn:E.
  - apply Z.ltb_lt in E. rewrite FloatAxioms.opp_spec, FloatAxioms.of_uint63_spec, Uint63.of_Z_spec.
    rewrite Z.mod_small by lia.
    destruct n as [| p | p]; try lia. cbn [Z.opp binary_normalize].
    destruct (@binary_round_small false p ltac:(lia)) as (m & e & -> & He & Hm).
    cbn [SFopp negb].
    destruct (@SF_value_integer true m e (Z.pos p) He Hm) as (q & Hq & Hv).
    exists q. split; [exact Hq | exact Hv].
  - apply Z.ltb_ge in E. rewrite FloatAxioms.of_uint63_spec, Uint63.of_Z_spec.
    rewrite Z.mod_small by lia.
    destruct n as [| p | p]; try lia. cbn [binary_normalize].
    destruct (@binary_round_small false p ltac:(lia)) as (m & e & -> & He & Hm).
    destruct (@SF_value_integer false m e (Z.pos p) He Hm) as (q & Hq & Hv).
    exists q. split; [exact Hq | exact Hv].
Qed.

Lemma valid_mantissa_bound s m e :
  valid_binary (S754_finite s m e) = true -> Z.pos m < 2 ^ 53.
Proof.
  cbn [valid_binary]. unfold bounded, canonical_mantissa. intros H.
  apply andb_true_iff in H as [H _]. apply Z.eqb_eq in H.
  pose proof (digits2_pos_bounds m) as [_ Hhi].
  assert (Z.pos (digits2_pos m) <= 53).
  { unfold fexp, emin, prec, emax in H. lia. }
  assert (2 ^ Z.pos (digits2_pos m) <= 2 ^ 53) by (apply Z.pow_le_mono_r; lia).
  lia.
Qed.

Lemma half_up_bound M e :
  e < 0 -> Z.abs M < 2 ^ 53 -> Z.abs (half_up M e) < 2 ^ 53.
Proof.
  intros He HM. unfold half_up.
  assert (HD : 2 <= 2 ^ (- e)).
  { change 2 with (2 ^ 1) at 1. apply Z.pow_le_mono_r; lia. }
  replace (2 ^ (1 - e)) with (2 * 2 ^ (- e))
    by (replace (1 - e) with (Z.succ (- e)) by lia;
        rewrite Z.pow_succ_r by lia; reflexivity).
  set (D := 2 ^ (- e)) in *.
  pose proof (Z.div_mod (2 * M + D) (2 * D) ltac:(lia)) as Hdm.
  pose proof (Z.mod_pos_bound (2 * M + D) (2 * D) ltac:(lia)) as Hb.
  set (n := (2 * M + D) / (2 * D)) in *.
  set (r := (2 * M + D) mod (2 * D)) in *.
  nia.
Qed.

(** The double [Math.round] returns holds the integer it denotes. *)
Lemma Math_round_value x n :
  round_int x = Some n -> holds_integer (Math_round x) n.
Proof.
  unfold round_int, Math_round. pose proof (Prim2SF_valid x) as Hv.
  destruct (Prim2SF x) as [s | s | | s m e] eqn:Ex; try discriminate.
  - intros H. injection H as <-. exists 0%Q. unfold number_value.
    rewrite Ex. split; reflexivity.
  - destruct (0 <=? e) eqn:E; intros H; injection H as <-.
    + unfold holds_integer, number_value. rewrite Ex. cbn [SF_value].
      rewrite E. eexists. split; reflexivity.
    + apply Z.leb_gt in E. apply valid_mantissa_bound in Hv.
      assert (HM : Z.abs (signed s m) < 2 ^ 53) by (destruct s; cbn; lia).
      pose proof (@half_up_bound _ _ E HM) as Hb.
      destruct (half_up (signed s m) e =? 0) eqn:E0.
      * apply Z.eqb_eq in E0. rewrite E0. exists 0%Q.
        split; [destruct s; reflexivity | reflexivity].
      * apply Z.eqb_neq in E0. apply of_Z_value. lia.
Qed.

End FloatFacts.

(* ================================================================= *)
(** ** The budget of the mock plan *)

Module BudgetFacts.
Import JS JSMath JSDate AiService Props FloatFacts.

Open Scope string_scope.
Open Scope list_scope.

Lemma half_up_nearest M e :
  (e < 0)%Z ->
  nearest (Qmake M (Z.to_pos (2 ^ (- e)))) (half_up M e).
Proof.
  intros He. unfold nearest, half_up.
  assert (HD : (0 < 2 ^ (- e))%Z) by (apply Z.pow_pos_nonneg; lia).
  replace (2 ^ (1 - e))%Z with (2 * 2 ^ (- e))%Z
    by (replace (1 - e)%Z with (Z.succ (- e)) by lia;
        rewrite Z.pow_succ_r by lia; reflexivity).
  set (D := (2 ^ (- e))%Z) in *.
  pose proof (Z.div_mod (2 * M + D) (2 * D) ltac:(lia)) as Hdm.
  pose proof (Z.mod_pos_bound (2 * M + D) (2 * D) ltac:(lia)) as Hb.
  set (n := ((2 * M + D) / (2 * D))%Z) in *.
  set (r := ((2 * M + D) mod (2 * D))%Z) in *.
  unfold Qlt, Qle, Qminus, Qplus, Qopp, inject_Z. cbn [Qnum Qden].
  rewrite !Pos2Z.inj_mul, !Z2Pos.id by lia.
  split; nia.
Qed.

(** On a finite double, [Math.round] denotes the nearest integer. *)
Lemma round_int_nearest x q :
  number_value x = Some q ->
  exists n, round_int x = Some n /\ nearest q n.
Proof.
  unfold number_value, SF_value, round_int.
  destruct (Prim2SF x) as [s | s | | s m e]; try discriminate.
  - intros H. injection H as <-. exists 0%Z. split; [reflexivity | ].
    unfold nearest. split; [reflexivity | discriminate].
  - destruct (0 <=? e)%Z eqn:E; intros H; injection H as <-.
    + eexists. split; [reflexivity | ]. unfold nearest. split; lra.
    + eexists. split; [reflexivity | ]. apply half_up_nearest.
      apply Z.leb_gt in E. exact E.
Qed.

Lemma nearest_sum q1 q2 q3 q4 t a f c :
  nearest q1 t -> nearest q2 a -> nearest q3 f -> nearest q4 c ->
  (q1 + q2 + q3 + q4 - 2 < inject_Z (t + a + f + c) /\
   inject_Z (t + a + f + c) <= q1 + q2 + q3 + q4 + 2)%Q.
Proof.
  unfold nearest. intros [] [] [] []. rewrite !inject_Z_plus. split; lra.
Qed.

(** C3, as amended.  The budget of the mock plan holds [Math.round] of
    the budget times 0.3, 0.4, 0.2 and 0.1.  When these four products are
    finite, each part is a double that holds the integer nearest to its
    product, so the parts add up to the sum of the four products up to
    rounding: within 2 of it, above or below. *)
Theorem mock_budget_rounds_each_share travelData q1 q2 q3 q4 :
  let budget := TravelData.budget travelData in
  number_value (budget * 0.3)%float = Some q1 ->
  number_value (budget * 0.4)%float = Some q2 ->
  number_value (budget * 0.2)%float = Some q3 ->
  number_value (budget * 0.1)%float = Some q4 ->
  exists T A F C t a f c,
    plan_budget (generateMockPlan travelData) = Some (T, A, F, C) /\
    T = Math_round (budget * 0.3)%float /\ holds_integer T t /\ nearest q1 t /\
    A = Math_round (budget * 0.4)%float /\ holds_integer A a /\ nearest q2 a /\
    F = Math_round (budget * 0.2)%float /\ holds_integer F f /\ nearest q3 f /\
    C = Math_round (budget * 0.1)%float /\ holds_integer C c /\ nearest q4 c /\
    (q1 + q2 + q3 + q4 - 2 < inject_Z (t + a + f + c) /\
     inject_Z (t + a + f + c) <= q1 + q2 + q3 + q4 + 2)%Q.
Proof.
  intros budget H1 H2 H3 H4.
  destruct (round_int_nearest _ H1) as (t & Ht & Nt).
  destruct (round_int_nearest _ H2) as (a & Ha & Na).
  destruct (round_int_nearest _ H3) as (f & Hf & Nf).
  destruct (round_int_nearest _ H4) as (c & Hc & Nc).
  do 4 eexists. exists t, a, f, c.
  split; [reflexivity | ].
  repeat (split; [reflexivity || assumption || (apply Math_round_value; assumption) | ]).
  apply nearest_sum; assumption.
Qed.

Lemma mock_budget_rounds_each_share_witness :
  let budget := 9%float in
  let q1 := (6079859496950169 # 2251799813685248)%Q in
  let q2 := (8106479329266893 # 2251799813685248)%Q in
  let q3 := (8106479329266893 # 4503599627370496)%Q in
  let q4 := (8106479329266893 # 9007199254740992)%Q in
  exists T A F C t a f c,
    plan_budget (generateMockPlan (Samples.trip 9)) = Some (T, A, F, C) /\
    T = Math_round (budget * 0.3)%float /\ holds_integer T t /\ nearest q1 t /\
    A = Math_round (budget * 0.4)%float /\ holds_integer A a /\ nearest q2 a /\
    F = Math_round (budget * 0.2)%float /\ holds_integer F f /\ nearest q3 f /\
    C = Math_round (budget * 0.1)%float /\ holds_integer C c /\ nearest q4 c /\
    (q1 + q2 + q3 + q4 - 2 < inject_Z (t + a + f + c) /\
     inject_Z (t + a + f + c) <= q1 + q2 + q3 + q4 + 2)%Q.
Proof.
  intros budget q1 q2 q3 q4.
  apply (@mock_budget_rounds_each_share (Samples.trip 9) q1 q2 q3 q4);
    vm_compute; reflexivity.
Defined.

(** A budget in round thousands is split exactly. *)
Example mock_budget_of_50000 :
  plan_budget (generateMockPlan (Samples.trip 50000)) =
    Some (15000, 20000, 10000, 5000)%float.
Proof. vm_compute. reflexivity. Qed.

(** C3, as stated, fails: with a budget of 9 the parts are 3, 4, 2 and
    1, which add up to 10. *)
Lemma parts_can_exceed_budget :
  ~ (forall travelData,
       dates_in_order travelData ->
       within_budget (generateMockPlan travelData)
         (TravelData.budget travelData) = true).
Proof.
  intros H. specialize (H (Samples.trip 9)).
  assert (Hd : dates_in_order (Samples.trip 9)).
  { exists 1710460800000%Z, 1710633600000%Z.
    split; [vm_compute; reflexivity | ].
    split; [vm_compute; reflexivity | lia]. }
  specialize (H Hd). vm_compute in H. discriminate H.
Qed.

End BudgetFacts.

(* ================================================================= *)
(** ** The length of the trip *)

Module DateFacts.
Import JS JSDate AiService Props.

Open Scope Z_scope.

Lemma leap_iff y :
  leap y = true <-> y mod 4 = 0 /\ (y mod 100 <> 0 \/ y mod 400 = 0).
Proof.
  unfold leap. rewrite andb_true_iff, orb_true_iff, negb_true_iff.
  rewrite !Z.eqb_eq, Z.eqb_neq. reflexivity.
Qed.

(** A year has 365 days, or 366 when it is a leap year. *)
Lemma DayFromYear_succ y :
  DayFromYear (y + 1) = DayFromYear y + 365 + (if leap y then 1 else 0).
Proof.
  unfold DayFromYear.
  destruct (leap y) eqn:E.
  - apply leap_iff in E. Z.to_euclidean_division_equations. lia.
  - assert (H : ~ (y mod 4 = 0 /\ (y mod 100 <> 0 \/ y mod 400 = 0))).
    { rewrite <- leap_iff. congruence. }
    Z.to_euclidean_division_equations. lia.
Qed.

Lemma month_start_succ y m :
  1 <= m < 12 ->
  month_start y (m + 1) = month_start y m + days_in_month y m.
Proof.
  intros H.
  assert (Hm : m = 1 \/ m = 2 \/ m = 3 \/ m = 4 \/ m = 5 \/ m = 6 \/ m = 7
               \/ m = 8 \/ m = 9 \/ m = 10 \/ m = 11) by lia.
  unfold month_start, days_in_month.
  repeat destruct Hm as [-> | Hm]; try subst m; cbn; destruct (leap y); lia.
Qed.

Lemma month_start_december y :
  month_start y 12 + 31 = 365 + (if leap y then 1 else 0).
Proof. unfold month_start. destruct (leap y); lia. Qed.

Lemma days_in_month_pos y m : 28 <= days_in_month y m.
Proof.
  unfold days_in_month.
  repeat match goal with
         | |- context [match ?x with _ => _ end] => destruct x
         end; lia.
Qed.

Lemma valid_date_iff d :
  valid_date d = true <->
  1 <= month d <= 12 /\ 1 <= day d <= days_in_month (year d) (month d).
Proof.
  unfold valid_date. rewrite !andb_true_iff, !Z.leb_le. tauto.
Qed.

(** The next day of a date of the calendar is the next day number. *)
Lemma MakeDay_next_day d :
  valid_date d = true -> MakeDay (next_day d) = MakeDay d + 1.
Proof.
  intros H. apply valid_date_iff in H as [Hm Hd].
  destruct d as [y m dd]. cbn [year month day] in *.
  unfold next_day, MakeDay. cbn [year month day].
  destruct (dd <? days_in_month y m) eqn:E1; cbn [year month day].
  - lia.
  - apply Z.ltb_ge in E1.
    destruct (m <? 12) eqn:E2; cbn [year month day].
    + apply Z.ltb_lt in E2. rewrite month_start_succ by lia. lia.
    + apply Z.ltb_ge in E2. assert (m = 12) by lia. subst m.
      rewrite DayFromYear_succ. pose proof (month_start_december y).
      change (days_in_month y 12) with 31 in *.
      change (month_start (y + 1) 1) with 0. lia.
Qed.

Lemma valid_next_day d : valid_date d = true -> valid_date (next_day d) = true.
Proof.
  intros H. apply valid_date_iff in H as [Hm Hd]. apply valid_date_iff.
  destruct d as [y m dd]. cbn [year month day] in *. unfold next_day.
  cbn [year month day].
  destruct (dd <? days_in_month y m) eqn:E1; cbn [year month day].
  - apply Z.ltb_lt in E1. lia.
  - destruct (m <? 12) eqn:E2; cbn [year month day].
    + apply Z.ltb_lt in E2. pose proof (days_in_month_pos y (m + 1)). lia.
    + change (days_in_month (y + 1) 1) with 31. lia.
Qed.

Lemma iter_next_day k : forall d,
  valid_date d = true ->
  valid_date (Nat.iter k next_day d) = true /\
  time_value (Nat.iter k next_day d) = time_value d + Z.of_nat k * msPerDay.
Proof.
  induction k as [| k IH]; intros d H.
  - cbn. split; [exact H | lia].
  - destruct (IH d H) as [Hv Ht]. rewrite Nat.iter_succ. split.
    + apply valid_next_day, Hv.
    + unfold time_value in *. rewrite (MakeDay_next_day _ Hv).
      rewrite Nat2Z.inj_succ. lia.
Qed.

Lemma checked_valid y m d dt :
  checked y m d = Some dt -> valid_date dt = true.
Proof.
  unfold checked. destruct y, m, d; try discriminate.
  destruct (valid_date _) eqn:E; [ | discriminate].
  intros H. injection H as <-. exact E.
Qed.

(** A string that parses denotes a date of the calendar. *)
Lemma parse_date_only_valid s d :
  parse_date_only s = Some d -> valid_date d = true.
Proof.
  intros H. unfold parse_date_only in H.
  repeat match type of H with
         | context [match ?x with _ => _ end] =>
             destruct x; try discriminate H
         end;
    eapply checked_valid; exact H.
Qed.

Lemma ceil_div_multiple k : ceil_div (k * msPerDay) msPerDay = k.
Proof.
  unfold ceil_div, msPerDay.
  replace (- (k * 86400000)) with ((- k) * 86400000) by lia.
  rewrite Z.div_mul by lia. lia.
Qed.

(** C9.  When [startDate] reads as a date of the calendar and
    [endDate] as the date [k] days later, the prompt builder computes
    [k + 1] days, the number of dates from the first to the last with
    both counted, and [k] nights, one less.  (15 to 17 March 2024: 3 days
    and 2 nights.) *)
Theorem trip_length_counts_both_endpoints travelData d k :
  parse_date_only (TravelData.startDate travelData) = Some d ->
  parse_date_only (TravelData.endDate travelData)
    = Some (Nat.iter k next_day d) ->
  tp_days (createTravelPrompt travelData) = Some (Z.of_nat k + 1) /\
  tp_nights (createTravelPrompt travelData) = Some (Z.of_nat k).
Proof.
  intros Hs He. cbn [createTravelPrompt tp_days tp_nights].
  pose proof (parse_date_only_valid _ Hs) as Hv.
  destruct (iter_next_day k _ Hv) as [_ Ht].
  assert (Hd : trip_days (TravelData.startDate travelData)
                 (TravelData.endDate travelData) = Some (Z.of_nat k + 1)).
  { unfold trip_days, getTime. rewrite Hs, He. cbn [option_map].
    rewrite Ht. f_equal.
    replace (time_value d + Z.of_nat k * msPerDay - time_value d)
      with (Z.of_nat k * msPerDay) by lia.
    change (1000 * 60 * 60 * 24) with msPerDay.
    rewrite ceil_div_multiple. reflexivity. }
  split; [exact Hd | ].
  unfold trip_nights. rewrite Hd. cbn [option_map]. f_equal. lia.
Qed.

Lemma trip_length_counts_both_endpoints_witness :
  let travelData := Samples.trip 9 in
  TravelData.startDate travelData = lit "2024-03-15" /\
  TravelData.endDate travelData = lit "2024-03-17" /\
  tp_days (createTravelPrompt travelData) = Some 3 /\
  tp_nights (createTravelPrompt travelData) = Some 2.
Proof.
  intros travelData. split; [reflexivity | split; [reflexivity | ]].
  apply (@trip_length_counts_both_endpoints travelData (Date 2024 3 15) 2);
    vm_compute; reflexivity.
Defined.

End DateFacts.

(* ================================================================= *)
(** ** The client: built once, kept, and not built without a key *)

Module ClientFacts.
Import JS AiService Props.

(** Once [getGenAIClient] has returned a client, every later call
    returns that client and leaves the state alone, whatever the
    environment variable has become since (unset, emptied or changed). *)
Theorem client_is_built_once p client p' :
  getGenAIClient p = (Return client, p') ->
  genAI p' = Some client /\
  forall key,
    getGenAIClient (with_env key p') = (Return client, with_env key p').
Proof.
  unfold getGenAIClient. intros H.
  assert (Hc : genAI p' = Some client).
  { destruct (genAI p) as [c | ] eqn:E.
    - injection H as <- <-. exact E.
    - destruct (GEMINI_API_KEY p) as [[| c k] | ]; try discriminate.
      injection H as <- <-. reflexivity. }
  split; [exact Hc | ]. intros key. cbn [with_env genAI]. rewrite Hc.
  reflexivity.
Qed.

Lemma client_is_built_once_witness :
  let client := {| apiKey := lit "k-123" |} in
  let p' := {| GEMINI_API_KEY := Some (lit "k-123"); genAI := Some client |} in
  genAI p' = Some client /\
  forall key,
    getGenAIClient (with_env key p') = (Return client, with_env key p').
Proof.
  intros client p'.
  apply (@client_is_built_once Samples.with_key client p'). reflexivity.
Defined.

(** A call without a key throws and changes nothing, and the failure is
    not remembered: once the variable holds a key that is not empty, the
    next call builds the client from it. *)
Theorem missing_key_is_not_remembered p c key :
  key_absent p ->
  exists e,
    getGenAIClient p = (Throw e, p) /\
    getGenAIClient (with_env (Some (c :: key)) p) =
      (Return {| apiKey := c :: key |},
       {| GEMINI_API_KEY := Some (c :: key);
          genAI := Some {| apiKey := c :: key |} |}).
Proof.
  intros H. exists (ErrorObj s_key_not_defined).
  split; [apply PlanFacts.getGenAIClient_absent, H | ].
  destruct H as [Hc _]. unfold getGenAIClient, with_env. cbn. rewrite Hc.
  reflexivity.
Qed.

Lemma missing_key_is_not_remembered_witness :
  exists e,
    getGenAIClient Samples.no_key = (Throw e, Samples.no_key) /\
    getGenAIClient (with_env (Some (lit "k-123")) Samples.no_key) =
      (Return {| apiKey := lit "k-123" |},
       {| GEMINI_API_KEY := Some (lit "k-123");
          genAI := Some {| apiKey := lit "k-123" |} |}).
Proof.
  apply (@missing_key_is_not_remembered Samples.no_key 107%N (lit "-123")).
  split; [reflexivity | left; reflexivity].
Defined.

End ClientFacts.

(* ================================================================= *)
(** ** The two shapes of a plan answer *)

Module PlanShape.
Import JS AiService Props.

(** Every answer of [generateTravelPlan] has one of two shapes: success
    with the parsed plan and no error, or failure with the mock plan and
    an error string.  It never reports success with an error, nor failure
    with anything but the mock plan. *)
Theorem plan_answer_has_two_shapes rt travelData p :
  exists r,
    fst (generateTravelPlan rt travelData p) = Return r /\
    ((success r = true /\ error r = None /\
      exists client text,
        fst (getGenAIClient p) = Return client /\
        generateContent rt client (PlanPrompt (createTravelPrompt travelData))
          = Return text /\
        JSON_parse rt (extractPlanJson text) = Return (data r))
     \/
     (success r = false /\ data r = generateMockPlan travelData /\
      exists msg, error r = Some msg)).
Proof.
  unfold generateTravelPlan.
  destruct (getGenAIClient p) as [[client | e] p'];
    cbn [fst try_catch bind];
    [ | eexists; split; [reflexivity | right; cbn; eauto]].
  destruct (generateContent rt client _) as [text | e] eqn:Hm;
    cbn [try_catch bind];
    [ | eexists; split; [reflexivity | right; cbn; eauto]].
  destruct (JSON_parse rt _) as [plan | e] eqn:Hp; cbn [try_catch bind];
    eexists; (split; [reflexivity | ]).
  - left. cbn. eauto 8.
  - right. cbn. eauto.
Qed.

End PlanShape.

(* ================================================================= *)
(** ** Recommendation generation: edges of the filter and of the parse *)

Module RecsEdgeFacts.
Import JS Regex AiService Props JSFacts RecsFacts ImageFacts.

Open Scope string_scope.
Open Scope list_scope.

(** Whatever [JSON.parse] throws, and whatever value it returns that is
    no array, the caller is told the one fixed message; the text of the
    parser's error and the inner message about the array never come out. *)
Theorem parse_failure_has_one_message rt prefs p client text :
  fst (getGenAIClient p) = Return client ->
  generateContent rt client (RecommendationPrompt prefs) = Return text ->
  (forall elems,
     JSON_parse rt (extractRecommendationsJson text) <> Return (JArr elems)) ->
  fst (generateRecommendations rt prefs p) =
    Return {| r_success := false; recommendations := [];
              r_error := Some s_no_valid_list |}.
Proof.
  intros Hc Hm Hp. unfold generateRecommendations. with_client Hc.
  rewrite Hm. cbn [bind]. unfold parse_list.
  destruct (JSON_parse rt _) as [v | e]; cbn; [ | reflexivity].
  destruct v; try reflexivity. exfalso. eapply Hp. reflexivity.
Qed.

Lemma parse_failure_has_one_message_witness :
  let rt := Samples.runtime_of (Return (lit "{}"))
              [(lit "{}", JObj [])] in
  fst (generateRecommendations rt Samples.prefs_kyoto Samples.with_key) =
    Return {| r_success := false; recommendations := [];
              r_error := Some s_no_valid_list |}.
Proof.
  intros rt.
  apply (@parse_failure_has_one_message rt Samples.prefs_kyoto
           Samples.with_key {| apiKey := lit "k-123" |} (lit "{}"));
    [reflexivity | reflexivity | intros elems; vm_compute; discriminate].
Defined.

Lemma filterM_throws f (l : list JSValue) x e :
  In x l -> f x = Throw e -> exists e', filterM f l = Throw e'.
Proof.
  induction l as [| y l IH]; intros Hin Hf; [destruct Hin | ].
  cbn. destruct (f y) as [b | e1] eqn:Hy; cbn; [ | eauto].
  destruct Hin as [-> | Hin]; [congruence | ].
  destruct (IH Hin Hf) as [e' ->]. cbn. eauto.
Qed.

Lemma replace_ws_unreadable rt x :
  truthy x = true -> (forall s, x <> JStr s) ->
  exists e, replace_ws rt (js_or x (JStr [])) = Throw e.
Proof.
  intros Ht Hs. unfold js_or. rewrite Ht.
  destruct x; cbn; eauto. exfalso. eapply Hs. reflexivity.
Qed.

Lemma get_prop_field rt rec key x :
  field key rec = Some x -> get_prop rt rec key = Return x.
Proof.
  unfold field, get_prop. intros H.
  destruct rec; cbn in H; try discriminate; cbn; rewrite H; reflexivity.
Qed.

Lemma keeps_malformed rt dest region rec :
  malformed rec -> exists e, keeps rt dest region rec = Throw e.
Proof.
  unfold keeps, stripped_field.
  intros [-> | [(x & Hx & Ht & Hs) | (x & Hx & Ht & Hs)]].
  - cbn. eauto.
  - rewrite (get_prop_field rt _ _ Hx). cbn [bind].
    destruct (replace_ws_unreadable rt Ht Hs) as [e ->]. cbn. eauto.
  - destruct (get_prop rt rec (lit "name")) as [n | e] eqn:Hn; cbn [bind];
      [ | eauto].
    destruct (replace_ws rt (js_or n (JStr []))) as [name | e];
      cbn [bind]; [ | eauto].
    rewrite (get_prop_field rt _ _ Hx). cbn [bind].
    destruct (replace_ws_unreadable rt Ht Hs) as [e ->]. cbn. eauto.
Qed.

(** One element the filter cannot read ([null], or a [name] or
    [description] that is a number other than zero, [true], an array or
    an object) makes the whole call fail: the answer is [success: false]
    with an empty list, however many other elements were fine. *)
Theorem one_malformed_element_fails_the_call rt prefs p parsed rec :
  parsed_array rt prefs p parsed ->
  In rec parsed -> malformed rec ->
  exists msg,
    fst (generateRecommendations rt prefs p) =
      Return {| r_success := false; recommendations := [];
                r_error := Some msg |}.
Proof.
  intros (client & text & Hc & Hm & Hp) Hin Hbad.
  destruct (keeps_malformed rt (strip_ws (Prefs.destination prefs))
              (strip_ws (region_or_empty prefs)) Hbad) as [e He].
  destruct (filterM_throws _ _ _ Hin He) as [e' Hf].
  unfold generateRecommendations. with_client Hc.
  rewrite Hm. cbn [bind]. unfold parse_list. rewrite Hp. cbn [bind try_catch].
  rewrite Hf. cbn. eauto.
Qed.

Lemma one_malformed_element_fails_the_call_witness :
  let rt := Samples.runtime_of (Return (lit "[..]"))
              [(lit "[..]",
                JArr [Samples.spot Samples.kinkakuji (lit "A pavilion") [];
                      JObj [(lit "name", JNum 7%float)]])] in
  exists msg,
    fst (generateRecommendations rt Samples.prefs_kyoto Samples.with_key) =
      Return {| r_success := false; recommendations := [];
                r_error := Some msg |}.
Proof.
  intros rt.
  apply (@one_malformed_element_fails_the_call rt Samples.prefs_kyoto
           Samples.with_key
           [Samples.spot Samples.kinkakuji (lit "A pavilion") [];
            JObj [(lit "name", JNum 7%float)]]
           (JObj [(lit "name", JNum 7%float)])).
  - exists {| apiKey := lit "k-123" |}, (lit "[..]").
    repeat split; vm_compute; reflexivity.
  - right. left. reflexivity.
  - right. left. exists (JNum 7%float).
    split; [reflexivity | split; [reflexivity | intros s; discriminate]].
Defined.

Lemma filterM_all f (l kept : list JSValue) :
  (forall x b, In x l -> f x = Return b -> b = true) ->
  filterM f l = Return kept -> kept = l.
Proof.
  revert kept. induction l as [| x l IH]; cbn; intros kept Hall H.
  - congruence.
  - destruct (f x) as [b | e] eqn:Hf; cbn in H; [ | discriminate].
    destruct (filterM f l) as [rest | e]; cbn in H; [ | discriminate].
    rewrite (Hall x b (or_introl eq_refl) Hf) in H. injection H as <-.
    f_equal. apply IH; [ | reflexivity]. intros y c Hy. apply Hall.
    right. exact Hy.
Qed.

Lemma includes_empty s : includes s [] = true.
Proof. destruct s; reflexivity. Qed.

(** With a destination that is empty or only whitespace (the default of
    the budget screen's preferences), the filter removes nothing: a
    successful call returns every parsed element, each through the image
    check, in the parsed order. *)
Theorem blank_destination_keeps_everything rt prefs p r :
  strip_ws (Prefs.destination prefs) = [] ->
  fst (generateRecommendations rt prefs p) = Return r ->
  r_success r = true ->
  exists parsed,
    parsed_array rt prefs p parsed /\
    recommendations r = map with_checked_image parsed.
Proof.
  intros Hd Hr Hs.
  destruct (recs_success_inv _ _ _ Hr Hs) as (parsed & kept & Hp & Hk & Hm).
  exists parsed. split; [exact Hp | ]. rewrite Hm. f_equal.
  unfold survivors in Hk. rewrite Hd in Hk.
  apply filterM_all in Hk; [exact Hk | ].
  intros x b _. unfold keeps.
  destruct (stripped_field rt x (lit "name")) as [name | e]; cbn [bind];
    [ | discriminate].
  destruct (stripped_field rt x (lit "description")) as [desc | e];
    cbn [bind]; [ | discriminate].
  rewrite includes_empty. cbn. congruence.
Qed.

Lemma blank_destination_keeps_everything_witness :
  let prefs := {| Prefs.destination := lit "  ";
                  Prefs.region := None;
                  Prefs.interests := [];
                  Prefs.budget := lit "medium";
                  Prefs.travelStyle := lit "balanced";
                  Prefs.groupSize := 2%float;
                  Prefs.duration := 3%float;
                  Prefs.customNote := None |} in
  let rt := Samples.runtime_answering Samples.two_spots in
  let r := {| r_success := true;
              recommendations :=
                map with_checked_image
                  [Samples.spot Samples.kinkakuji (lit "A golden pavilion")
                     (lit "https://example.com/kinkaku.JPG");
                   Samples.spot Samples.tokyo_tower (lit "A tower") []];
              r_error := None |} in
  exists parsed,
    parsed_array rt prefs Samples.with_key parsed /\
    recommendations r = map with_checked_image parsed.
Proof.
  intros prefs rt r.
  apply (@blank_destination_keeps_everything rt prefs Samples.with_key r);
    [reflexivity | vm_compute; reflexivity | reflexivity].
Defined.

(** With no region, or one that is empty or only whitespace, the region
    admits nothing: every returned element has the destination in its
    name or its description.  (The empty string is contained in every
    string; the test [region &&] keeps it from matching.) *)
Theorem blank_region_admits_nothing rt prefs p r :
  strip_ws (region_or_empty prefs) = [] ->
  fst (generateRecommendations rt prefs p) = Return r ->
  r_success r = true ->
  forall out, In out (recommendations r) -> about_destination rt prefs out.
Proof.
  intros Hg Hr Hs out Hin.
  destruct (recs_success_inv _ _ _ Hr Hs) as (parsed & kept & Hp & Hk & Hm).
  rewrite Hm in Hin. apply in_map_iff in Hin as (rec & <- & Hin).
  unfold survivors in Hk. apply filterM_inv in Hk as [_ Hk].
  specialize (Hk rec Hin). rewrite Hg in Hk. unfold keeps in Hk.
  destruct (stripped_field rt rec (lit "name")) as [name | e] eqn:Hn;
    cbn [bind] in Hk; [ | discriminate].
  destruct (stripped_field rt rec (lit "description")) as [desc | e] eqn:Hd;
    cbn [bind] in Hk; [ | discriminate].
  exists name, desc.
  split; [ | split];
    try (apply stripped_field_with_checked_image;
         [apply jsstring_eqb_neq; reflexivity | assumption]).
  injection Hk as Hk. cbn [length Nat.eqb negb andb] in Hk.
  rewrite orb_false_r in Hk. apply orb_true_iff in Hk. rewrite !includes_iff in Hk. exact Hk.
Qed.

Lemma blank_region_admits_nothing_witness :
  about_destination (Samples.runtime_answering Samples.two_spots)
    Samples.prefs_kyoto
    (with_checked_image
       (Samples.spot Samples.kinkakuji (lit "A golden pavilion")
          (lit "https://example.com/kinkaku.JPG"))).
Proof.
  apply (@blank_region_admits_nothing
           (Samples.runtime_answering Samples.two_spots)
           Samples.prefs_kyoto Samples.with_key
           {| r_success := true;
              recommendations :=
                [with_checked_image
                   (Samples.spot Samples.kinkakuji (lit "A golden pavilion")
                      (lit "https://example.com/kinkaku.JPG"))];
              r_error := None |});
    [reflexivity | vm_compute; reflexivity | reflexivity | left; reflexivity].
Defined.

(** In a successful call every returned element carries an [image] that
    passes [isValidImage]: the parsed one when it passed, the placeholder
    (which passes itself) when it did not.  No element comes back with a
    missing, empty or non-string [image]. *)
Theorem returned_images_are_valid rt prefs p r :
  fst (generateRecommendations rt prefs p) = Return r ->
  r_success r = true ->
  forall out, In out (recommendations r) -> valid_image (image_of out).
Proof.
  intros Hr Hs out Hin.
  destruct (recs_success_inv _ _ _ Hr Hs) as (parsed & kept & _ & _ & Hm).
  rewrite Hm in Hin. apply in_map_iff in Hin as (rec & <- & _).
  apply isValidImage_iff. rewrite image_of_with_checked_image.
  destruct (isValidImage (image_of rec)) eqn:E; [exact E | ].
  vm_compute. reflexivity.
Qed.

Lemma returned_images_are_valid_witness :
  valid_image
    (image_of
       (with_checked_image
          (Samples.spot Samples.kinkakuji (lit "A golden pavilion")
             (lit "https://example.com/kinkaku.JPG")))).
Proof.
  apply (@returned_images_are_valid
           (Samples.runtime_answering Samples.two_spots)
           Samples.prefs_kyoto Samples.with_key
           {| r_success := true;
              recommendations :=
                [with_checked_image
                   (Samples.spot Samples.kinkakuji (lit "A golden pavilion")
                      (lit "https://example.com/kinkaku.JPG"))];
              r_error := None |});
    [vm_compute; reflexivity | reflexivity | left; reflexivity].
Defined.

End RecsEdgeFacts.

(* ================================================================= *)
(** ** Extraction: what comes out is part of what came in *)

Module ExtractMore.
Import JS Regex AiService Props JSFacts RegexFacts ExtractFacts.

Open Scope string_scope.
Open Scope list_scope.

Section Within.
Variable A : Type.
Variable icase : bool.
Implicit Types (k : cont A) (s : jsstring) (cs : captures).

(** The captures a pattern hands to its continuation are the ones it
    was given and pieces of the text it consumed. *)
Lemma run_within r : forall k s cs a,
  run icase r k s cs = Some a ->
  exists s1 s2 cs',
    s = s1 ++ s2 /\ k s2 cs' = Some a /\
    forall e, In e cs' -> In e cs \/ mentions s1 (snd e).
Proof.
  induction r as [c | p | r1 IH1 r2 IH2 | r1 IH1 r2 IH2 | p | p
                 | r IH | i r IH | | ]; intros k s cs a H; cbn in H.
  - destruct s as [| x s]; [discriminate | ].
    destruct (chr_eq icase c x); [ | discriminate].
    exists [x], s, cs. auto.
  - destruct s as [| x s]; [discriminate | ].
    destruct (in_class p x); [ | discriminate].
    exists [x], s, cs. auto.
  - destruct (IH1 _ _ _ _ H) as (s1 & t & cs1 & -> & H2 & W1).
    destruct (IH2 _ _ _ _ H2) as (s2 & s3 & cs2 & -> & H3 & W2).
    exists (s1 ++ s2), s3, cs2. rewrite <- app_assoc.
    split; [reflexivity | split; [exact H3 | ]].
    intros e He. destruct (W2 e He) as [He1 | (u & v & Hm)].
    + destruct (W1 e He1) as [He0 | (u & v & Hm)]; [left; exact He0 | ].
      right. exists u, (v ++ s2). rewrite Hm, <- !app_assoc. reflexivity.
    + right. exists (s1 ++ u), v. rewrite Hm, <- !app_assoc. reflexivity.
  - destruct (run icase r1 k s cs) as [a' | ] eqn:E.
    + injection H as ->. exact (IH1 _ _ _ _ E).
    + exact (IH2 _ _ _ _ H).
  - destruct (star_greedy_sound _ _ _ _ H) as (s1 & s2 & -> & _ & Hk).
    exists s1, s2, cs. auto.
  - destruct (star_lazy_sound _ _ _ _ H) as (s1 & s2 & -> & _ & Hk).
    exists s1, s2, cs. auto.
  - destruct (run icase r k s cs) as [a' | ] eqn:E.
    + injection H as ->. exact (IH _ _ _ _ E).
    + exists [], s, cs. auto.
  - destruct (IH _ _ _ _ H) as (s1 & s2 & cs' & -> & Hk & W).
    rewrite firstn_app_sub in Hk.
    exists s1, s2, ((i, s1) :: cs'). split; [reflexivity | split; [exact Hk | ]].
    intros e [<- | He]; [right; exists [], []; cbn; symmetry; apply app_nil_r | ].
    apply W, He.
  - destruct s; [ | discriminate]. exists [], [], cs. auto.
  - exists [], s, cs. auto.
Qed.
End Within.

Lemma capture_In i cs g : capture i cs = Some g -> In (i, g) cs.
Proof.
  induction cs as [| [j h] cs IH]; cbn; [discriminate | ].
  destruct (Nat.eqb j i) eqn:E.
  - intros H. injection H as ->. apply Nat.eqb_eq in E. subst j.
    left. reflexivity.
  - intros H. right. apply IH, H.
Qed.

Lemma match_here_within icase r s m :
  match_here icase r s = Some m ->
  mentions s (matched m) /\
  forall i g, group i m = Some g -> mentions s g.
Proof.
  unfold match_here. intros H.
  destruct (run_within _ _ _ _ _ H) as (s1 & s2 & cs' & -> & Hk & W).
  injection Hk as <-. cbn [matched groups]. rewrite firstn_app_sub.
  split; [exists [], s2; reflexivity | ].
  intros i g Hg. unfold group in Hg. cbn [groups] in Hg.
  apply capture_In in Hg. destruct (W _ Hg) as [[] | (u & v & Hm)].
  cbn in Hm. exists u, (v ++ s2). rewrite Hm, <- !app_assoc. reflexivity.
Qed.

Lemma mentions_cons x s sub : mentions s sub -> mentions (x :: s) sub.
Proof. intros (u & v & ->). exists (x :: u), v. reflexivity. Qed.

(** Element 0 and every group of a match are pieces of the input. *)
Lemma exec_within icase r s m :
  exec icase r s = Some m ->
  mentions s (matched m) /\
  forall i g, group i m = Some g -> mentions s g.
Proof.
  induction s as [| x s IH]; cbn; intros H.
  - destruct (match_here icase r []) eqn:E; [ | discriminate].
    injection H as ->. exact (match_here_within _ _ _ E).
  - destruct (match_here icase r (x :: s)) eqn:E.
    + injection H as ->. exact (match_here_within _ _ _ E).
    + destruct (IH H) as [H0 Hg].
      split; [apply mentions_cons, H0 | ].
      intros i g Hi. apply mentions_cons. exact (Hg i g Hi).
Qed.

Lemma jsonString_of_within a b text :
  (forall m, a = Some m ->
     mentions text (matched m) /\
     forall i g, group i m = Some g -> mentions text g) ->
  (forall m, b = Some m ->
     mentions text (matched m) /\
     forall i g, group i m = Some g -> mentions text g) ->
  mentions text (jsonString_of (match_or a b) text).
Proof.
  intros Ha Hb.
  assert (H : forall m, match_or a b = Some m ->
            mentions text (matched m) /\
            forall i g, group i m = Some g -> mentions text g).
  { destruct a as [m | ]; cbn; intros m' E; [apply Ha, E | apply Hb, E]. }
  destruct (match_or a b) as [m | ]; cbn.
  - destruct (H m eq_refl) as [H0 Hg].
    destruct (group 1 m) as [[| c g] | ] eqn:E; try exact H0.
    apply (Hg 1%nat). exact E.
  - exists [], []. cbn. symmetry. apply app_nil_r.
Qed.

(** Whatever the response text, both extractors hand [JSON.parse] a
    piece of that text, code unit for code unit: nothing is added,
    unescaped, trimmed from the middle or joined from two places. *)
Theorem extracted_text_is_part_of_the_response text :
  mentions text (extractPlanJson text) /\
  mentions text (extractRecommendationsJson text).
Proof.
  unfold extractPlanJson, extractRecommendationsJson, String_match.
  split; apply jsonString_of_within; intros m E; exact (exec_within _ _ _ E).
Qed.

(** The pattern after the opening fence, on a fence with only
    whitespace in it: group 1 is the empty string. *)
Lemma empty_fence_tail_run {A} (k : cont A) ws post cs a :
  all_space ws ->
  k post ((1%nat, []) :: cs) = Some a ->
  run false
    (seq [Star CSpace; Group 1 (LazyStar CAny); Star CSpace; word ticks])
    k (ws ++ ticks ++ post) cs = Some a.
Proof.
  intros Hw Hk.
  change (seq [Star CSpace; Group 1 (LazyStar CAny); Star CSpace; word ticks])
    with (Cat (Star CSpace)
            (Cat (Group 1 (LazyStar CAny)) (Cat (Star CSpace) (word ticks)))).
  cbn [run]. apply star_greedy_app; [exact Hw | ].
  rewrite star_greedy_stop
    by (intros x r E; cbn in E; injection E as <- _; reflexivity).
  cbn [run]. apply star_lazy_here. rewrite Nat.sub_diag, firstn_O.
  rewrite star_greedy_stop
    by (intros x r E; cbn in E; injection E as <- _; reflexivity).
  apply run_word_app_some. exact Hk.
Qed.

Lemma empty_fence_exec pre ws post :
  ~ mentions (pre ++ lit "```jso") json_fence ->
  all_space ws ->
  exec false fence_re (pre ++ json_fence ++ ws ++ ticks ++ post) =
    Some (MatchResult (json_fence ++ ws ++ ticks) [(1%nat, [])]).
Proof.
  intros Hpre Hw.
  change fence_re with
    (Cat (word json_fence)
       (seq [Star CSpace; Group 1 (LazyStar CAny); Star CSpace; word ticks])).
  rewrite exec_skip_prefix.
  - apply exec_here. unfold match_here. cbn [run].
    rewrite run_word_app. apply empty_fence_tail_run; [exact Hw | ].
    f_equal. f_equal.
    replace (json_fence ++ ws ++ ticks ++ post)
      with ((json_fence ++ ws ++ ticks) ++ post)
      by (rewrite <- !app_assoc; reflexivity).
    apply firstn_app_sub.
  - intros u t -> Hne. apply match_here_word_fail.
    destruct (startsWith _ json_fence) eqn:E; [exfalso | reflexivity].
    apply Hpre.
    destruct (@startsWith_overlap t (lit "```jso") (ws ++ ticks ++ post)
                110%N Hne) as (p1 & p2 & Hm).
    + exact E.
    + exists (u ++ p1), p2. rewrite <- !app_assoc. f_equal. exact Hm.
Qed.

(** When the first fence labelled [json] holds nothing but whitespace,
    group 1 is the empty string, [||] passes over it, and both extractors
    return the whole fenced block, backticks and label included; the
    brace or bracket pattern is not tried, whatever follows the fence. *)
Theorem empty_fence_comes_out_whole pre ws post :
  ~ mentions (pre ++ lit "```jso") json_fence ->
  all_space ws ->
  let text := pre ++ json_fence ++ ws ++ ticks ++ post in
  extractPlanJson text = json_fence ++ ws ++ ticks /\
  extractRecommendationsJson text = json_fence ++ ws ++ ticks.
Proof.
  intros Hpre Hw text. subst text.
  unfold extractPlanJson, extractRecommendationsJson, String_match.
  rewrite (@empty_fence_exec pre ws post Hpre Hw). split; reflexivity.
Qed.

Lemma empty_fence_comes_out_whole_witness :
  let text := lit "Sorry." ++ json_fence ++ [10%N] ++ ticks ++ lit " {}" in
  extractPlanJson text = json_fence ++ [10%N] ++ ticks /\
  extractRecommendationsJson text = json_fence ++ [10%N] ++ ticks.
Proof.
  apply (@empty_fence_comes_out_whole (lit "Sorry.") [10%N] (lit " {}")).
  - apply includes_false_iff. vm_compute. reflexivity.
  - repeat constructor.
Defined.

End ExtractMore.

(* ================================================================= *)
(** ** Names from an image *)

Module NamesFacts.
Import JS Regex JSSplit AiService Props JSFacts RegexFacts ExtractFacts.

Open Scope string_scope.
Open Scope list_scope.

Section Lines.
Variable piece : jsstring.

Lemma line_feed_here s :
  match_here false newline_re (10%N :: s) = Some (MatchResult [10%N] []).
Proof.
  unfold match_here, newline_re. cbn [seq run]. unfold chr_eq. cbn.
  do 2 f_equal. apply (firstn_app_sub [10%N] s).
Qed.

Lemma return_line_feed_here s :
  match_here false newline_re (13%N :: 10%N :: s)
  = Some (MatchResult [13; 10]%N []).
Proof.
  unfold match_here, newline_re. cbn [seq run]. unfold chr_eq. cbn.
  do 2 f_equal. apply (firstn_app_sub [13; 10]%N s).
Qed.

Lemma split_at_line_feed s :
  split_from newline_re (10%N :: s) 0 piece
  = piece :: split_from newline_re s 0 [].
Proof. cbn [split_from]. rewrite line_feed_here. reflexivity. Qed.

Lemma split_at_return_line_feed s :
  split_from newline_re (13%N :: 10%N :: s) 0 piece
  = piece :: split_from newline_re s 0 [].
Proof.
  change (split_from newline_re (13%N :: 10%N :: s) 0 piece)
    with (match match_here false newline_re (13%N :: 10%N :: s) with
          | Some m =>
              match length (matched m), piece with
              | O, [] => split_from newline_re (10%N :: s) 0 [13%N]
              | O, _ :: _ => piece :: split_from newline_re (10%N :: s) 0 [13%N]
              | S n, _ => piece :: split_from newline_re (10%N :: s) n []
              end
          | None => split_from newline_re (10%N :: s) 0 (piece ++ [13%N])
          end).
  rewrite return_line_feed_here. reflexivity.
Qed.

Lemma split_at_other c s :
  c <> 10%N -> (c = 13%N -> forall s', s <> 10%N :: s') ->
  split_from newline_re (c :: s) 0 piece
  = split_from newline_re s 0 (piece ++ [c]).
Proof.
  intros H10 H13.
  assert (E : match_here false newline_re (c :: s) = None).
  { unfold match_here, newline_re. cbn [seq run]. unfold chr_eq. cbn [canon andb].
    destruct (N.eqb_spec 13 c) as [<- | Hc].
    - destruct s as [| y s]; [reflexivity | ].
      destruct (N.eqb_spec 10 y) as [<- | Hy];
        [exfalso; exact (H13 eq_refl s eq_refl) | reflexivity].
    - destruct (N.eqb_spec 10 c) as [<- | _]; [congruence | reflexivity]. }
  cbn [split_from]. rewrite E. reflexivity.
Qed.
End Lines.

Lemma split_lines n : forall s piece,
  (length s <= n)%nat ->
  ~ In 10%N piece ->
  (forall q s', piece = q ++ [13%N] -> s <> 10%N :: s') ->
  exists segs last,
    split_from newline_re s 0 piece = map fst segs ++ [last] /\
    piece ++ s = concat (map (fun ps => fst ps ++ snd ps) segs) ++ last /\
    Forall (fun ps => ~ In 10%N (fst ps) /\ line_break (fst ps) (snd ps))
      segs /\
    ~ In 10%N last.
Proof.
  induction n as [| n IH]; intros s piece Hl Hp Hinv.
  - destruct s; [ | cbn in Hl; lia].
    exists [], piece. cbn. rewrite app_nil_r. auto.
  - destruct s as [| c s].
    { exists [], piece. cbn. rewrite app_nil_r. auto. }
    cbn in Hl.
    destruct (N.eq_dec c 10) as [-> | H10].
    + rewrite split_at_line_feed.
      destruct (IH s [] ltac:(lia) ltac:(intros [])) as (segs & last & E & T & F & L).
      { intros [| ? ?] s' Hq; discriminate Hq. }
      exists ((piece, [10%N]) :: segs), last. cbn [map fst snd concat].
      rewrite E. cbn [app] in T.
      split; [reflexivity | split; [ | split; [ | exact L]]].
      { rewrite <- !app_assoc. cbn [app]. rewrite <- T. reflexivity. }
      constructor; [ | exact F]. split; [exact Hp | ].
      right. split; [reflexivity | ]. intros q Hq. exact (Hinv q s Hq eq_refl).
    + destruct (N.eq_dec c 13) as [-> | H13].
      * destruct s as [| y s].
        { rewrite split_at_other; [ | exact H10 | intros _ s'; discriminate].
          exists [], (piece ++ [13%N]). cbn.
          split; [reflexivity | split; [reflexivity | split; [constructor | ]]].
          intros Hi. apply in_app_or in Hi as [Hi | [Hi | []]];
            [exact (Hp Hi) | discriminate Hi]. }
        destruct (N.eq_dec y 10) as [-> | Hy].
        -- rewrite split_at_return_line_feed. cbn in Hl.
           destruct (IH s [] ltac:(lia) ltac:(intros [])) as (segs & last & E & T & F & L).
           { intros [| ? ?] s' Hq; discriminate Hq. }
           exists ((piece, [13; 10]%N) :: segs), last. cbn [map fst snd concat].
           rewrite E. cbn [app] in T.
           split; [reflexivity | split; [ | split; [ | exact L]]].
           { rewrite <- !app_assoc. cbn [app]. rewrite <- T. reflexivity. }
           constructor; [ | exact F]. split; [exact Hp | left; reflexivity].
        -- rewrite split_at_other;
             [ | exact H10 | intros _ s' Hs; injection Hs as Hs _; exact (Hy Hs)].
           destruct (IH (y :: s) (piece ++ [13%N]) ltac:(lia))
             as (segs & last & E & T & F & L).
           { intros Hi. apply in_app_or in Hi as [Hi | [Hi | []]];
               [exact (Hp Hi) | discriminate Hi]. }
           { intros q s' _ Hs. injection Hs as Hs _. exact (Hy Hs). }
           exists segs, last. rewrite <- app_assoc in T. auto.
      * rewrite split_at_other; [ | exact H10 | intros Hc; contradiction].
        destruct (IH s (piece ++ [c]) ltac:(lia)) as (segs & last & E & T & F & L).
        { intros Hi. apply in_app_or in Hi as [Hi | [Hi | []]];
            [exact (Hp Hi) | congruence]. }
        { intros q s' Hq. apply app_inj_tail in Hq as [_ Hq]. contradiction. }
        exists segs, last. rewrite <- app_assoc in T. auto.
Qed.

(** [text.split(/\r?\n/)] gives the lines of the text. *)
Lemma String_split_lines text : lines_of text (String_split text newline_re).
Proof.
  unfold lines_of.
  destruct (@split_lines (length text) text [] (le_n _) ltac:(intros []))
    as (segs & last & E & T & F & L).
  { intros [| ? ?] s' Hq; discriminate Hq. }
  exists segs, last. cbn [app] in T.
  split; [exact T | split; [ | auto]].
  destruct text as [| c text]; [ | exact E]. cbn in E |- *. exact E.
Qed.

Lemma filter_Boolean_nonempty l x : In x (filter_Boolean l) -> x <> [] /\ In x l.
Proof.
  unfold filter_Boolean. intros H. apply filter_In in H as [Hin Hx].
  split; [ | exact Hin]. intros ->. discriminate Hx.
Qed.

(** When the answer of the model holds no opening bracket with a closing
    bracket after it, the names returned are the lines of the answer that
    are not empty, in their order, where a line ends at a line feed or at
    a carriage return with a line feed; so no name is empty and none
    holds a line feed. *)
Theorem names_are_the_lines_that_are_not_empty vision rt imageBase64 p client text :
  fst (getGenAIClient p) = Return client ->
  vision client imageBase64 = Return text ->
  ~ has_delimited 91 93 text ->
  exists pieces,
    lines_of text pieces /\
    fst (extractNamesFromImage vision rt imageBase64 p) =
      Return (JArr (map JStr (filter_Boolean pieces))) /\
    forall name, In name (filter_Boolean pieces) ->
      name <> [] /\ ~ In 10%N name.
Proof.
  intros Hc Hv Hno. exists (String_split text newline_re).
  split; [apply String_split_lines | split].
  - unfold extractNamesFromImage. with_client Hc. rewrite Hv. cbn [bind].
    unfold String_match, array_re. rewrite (delimited_exec_none Hno).
    reflexivity.
  - intros name Hin. apply filter_Boolean_nonempty in Hin as [Hne Hin].
    split; [exact Hne | ].
    destruct (String_split_lines text) as (segs & last & _ & E & F & L).
    rewrite E in Hin. apply in_app_or in Hin as [Hin | [<- | []]]; [ | exact L].
    apply in_map_iff in Hin as (ps & <- & Hps).
    rewrite Forall_forall in F. exact (proj1 (F ps Hps)).
Qed.

Lemma names_are_the_lines_that_are_not_empty_witness :
  let text := lit "Tanaka" ++ [13; 10; 10]%N ++ lit "Sato" ++ [10%N] in
  let vision := fun (_ : GoogleGenerativeAI) (_ : jsstring) => Return text in
  exists pieces,
    lines_of text pieces /\
    fst (extractNamesFromImage vision (Samples.runtime_of (Return []) [])
           (lit "iVBOR") Samples.with_key) =
      Return (JArr (map JStr (filter_Boolean pieces))) /\
    forall name, In name (filter_Boolean pieces) ->
      name <> [] /\ ~ In 10%N name.
Proof.
  intros text vision.
  apply (@names_are_the_lines_that_are_not_empty vision
           (Samples.runtime_of (Return []) []) (lit "iVBOR") Samples.with_key
           {| apiKey := lit "k-123" |} text);
    [reflexivity | reflexivity | ].
  intros (pre & mid & post & E).
  assert (H : In 91%N text) by (rewrite E; apply in_or_app; right; left; reflexivity).
  vm_compute in H. intuition discriminate.
Defined.

(** When the answer holds brackets, the function returns what
    [JSON.parse] makes of the span from the first opening bracket to the
    last closing bracket, whatever kind of value that is, and the empty
    array when the span does not parse; the lines of the answer are not
    looked at. *)
Theorem names_are_the_parsed_bracket_span vision rt imageBase64 p client text m :
  fst (getGenAIClient p) = Return client ->
  vision client imageBase64 = Return text ->
  delimited 91 93 text m ->
  fst (extractNamesFromImage vision rt imageBase64 p) =
    match JSON_parse rt m with
    | Return v => Return v
    | Throw _ => Return (JArr [])
    end.
Proof.
  intros Hc Hv Hm. unfold extractNamesFromImage. with_client Hc.
  rewrite Hv. cbn [bind]. unfold String_match, array_re.
  rewrite (delimited_exec Hm). cbn [matched].
  destruct (JSON_parse rt m); reflexivity.
Qed.

Lemma names_are_the_parsed_bracket_span_witness :
  let text := lit "1. [Tanaka] 2. [Sato]" in
  let vision := fun (_ : GoogleGenerativeAI) (_ : jsstring) => Return text in
  let rt := Samples.runtime_of (Return []) [] in
  fst (extractNamesFromImage vision rt (lit "iVBOR") Samples.with_key) =
    match JSON_parse rt (lit "[Tanaka] 2. [Sato]") with
    | Return v => Return v
    | Throw _ => Return (JArr [])
    end.
Proof.
  intros text vision rt.
  apply (@names_are_the_parsed_bracket_span vision rt (lit "iVBOR")
           Samples.with_key {| apiKey := lit "k-123" |} text
           (lit "[Tanaka] 2. [Sato]"));
    [reflexivity | reflexivity | ].
  exists (lit "1. "), (lit "Tanaka] 2. [Sato"), [].
  split; [reflexivity | split; [ | split; [ | reflexivity]]].
  - vm_compute. intuition discriminate.
  - intros [].
Defined.

(** [extractNamesFromImage] never rejects, and every failure on the way
    (no API key, a model call that throws, a bracket span that does not
    parse) comes out as the empty array, the same value as an answer
    without any name. *)
Theorem names_failure_is_the_empty_list vision rt imageBase64 p :
  (exists v, fst (extractNamesFromImage vision rt imageBase64 p) = Return v) /\
  (key_absent p \/
   (exists client e,
      fst (getGenAIClient p) = Return client /\
      vision client imageBase64 = Throw e) \/
   (exists client text m e,
      fst (getGenAIClient p) = Return client /\
      vision client imageBase64 = Return text /\
      delimited 91 93 text m /\ JSON_parse rt m = Throw e) ->
   fst (extractNamesFromImage vision rt imageBase64 p) = Return (JArr [])).
Proof.
  split.
  - unfold extractNamesFromImage.
    destruct (getGenAIClient p) as [[client | e] p']; cbn [fst try_catch bind];
      [ | eauto].
    destruct (vision client imageBase64) as [text | e]; cbn [try_catch bind];
      [ | eauto].
    destruct (String_match text array_re) as [m | ]; [ | cbn; eauto].
    destruct (JSON_parse rt (matched m)); cbn; eauto.
  - intros [Hk | [(client & e & Hc & Hv) | (client & text & m & e & Hc & Hv & Hm & Hp)]].
    + unfold extractNamesFromImage.
      rewrite (PlanFacts.getGenAIClient_absent Hk). reflexivity.
    + unfold extractNamesFromImage. with_client Hc. rewrite Hv. reflexivity.
    + unfold extractNamesFromImage. with_client Hc. rewrite Hv. cbn [bind].
      unfold String_match, array_re. rewrite (delimited_exec Hm).
      cbn [matched]. rewrite Hp. reflexivity.
Qed.

End NamesFacts.

(* ================================================================= *)
(** ** Dates: what the form lets through and what the prompt makes of it *)

Module FormFacts.
Import JS JSDate AiService TravelForm Props DateFacts.

Open Scope Z_scope.

(** The prompt builder does not look at the order of the dates: when
    [endDate] reads as a date and [startDate] as the date [k] days after
    it, the prompt holds [1 - k] days and [- k] nights (for one day back,
    0 days and -1 nights). *)
Theorem trip_that_ends_before_it_starts travelData d k :
  parse_date_only (TravelData.endDate travelData) = Some d ->
  parse_date_only (TravelData.startDate travelData)
    = Some (Nat.iter k next_day d) ->
  tp_days (createTravelPrompt travelData) = Some (1 - Z.of_nat k) /\
  tp_nights (createTravelPrompt travelData) = Some (- Z.of_nat k).
Proof.
  intros He Hs. cbn [createTravelPrompt tp_days tp_nights].
  pose proof (parse_date_only_valid _ He) as Hv.
  destruct (iter_next_day k _ Hv) as [_ Ht].
  assert (Hd : trip_days (TravelData.startDate travelData)
                 (TravelData.endDate travelData) = Some (1 - Z.of_nat k)).
  { unfold trip_days, getTime. rewrite Hs, He. cbn [option_map].
    rewrite Ht. f_equal.
    replace (time_value d - (time_value d + Z.of_nat k * msPerDay))
      with ((- Z.of_nat k) * msPerDay) by lia.
    change (1000 * 60 * 60 * 24) with msPerDay.
    rewrite ceil_div_multiple. lia. }
  split; [exact Hd | ].
  unfold trip_nights. rewrite Hd. cbn [option_map]. f_equal. lia.
Qed.

Lemma trip_that_ends_before_it_starts_witness :
  let travelData :=
    {| TravelData.destination := Samples.kyoto;
       TravelData.startDate := lit "2024-03-01";
       TravelData.endDate := lit "2024-02-28";
       TravelData.memberCount := 2%float;
       TravelData.budget := 50000%float;
       TravelData.interests := [];
       TravelData.travelStyle := lit "balanced";
       TravelData.description := [] |} in
  tp_days (createTravelPrompt travelData) = Some (-1) /\
  tp_nights (createTravelPrompt travelData) = Some (-2).
Proof.
  intros travelData.
  apply (@trip_that_ends_before_it_starts travelData (Date 2024 2 28) 2);
    vm_compute; reflexivity.
Defined.

Lemma days_between_dates startDate endDate d1 d2 :
  parse_date_only startDate = Some d1 ->
  parse_date_only endDate = Some d2 ->
  days_between startDate endDate = Some (MakeDay d2 - MakeDay d1).
Proof.
  intros H1 H2. unfold days_between, getTime. rewrite H1, H2.
  cbn [option_map]. f_equal. unfold time_value.
  replace (MakeDay d2 * msPerDay - MakeDay d1 * msPerDay)
    with ((MakeDay d2 - MakeDay d1) * msPerDay) by lia.
  change (1000 * 60 * 60 * 24) with msPerDay.
  apply ceil_div_multiple.
Qed.

Lemma parsed_not_empty s d : parse_date_only s = Some d -> s <> [].
Proof. intros H ->. discriminate H. Qed.

(** For two strings that read as dates, the form accepts the pair
    exactly when the start is not before today and the end is from 0 to
    365 days after the start; for an accepted pair the form shows, and
    the prompt of the service holds, the same numbers: [n + 1] days, from
    1 to 366, and [n] nights. *)
Theorem accepted_dates_give_a_trip_of_1_to_366_days today startDate endDate d1 d2 :
  parse_date_only startDate = Some d1 ->
  parse_date_only endDate = Some d2 ->
  let n := MakeDay d2 - MakeDay d1 in
  (isValid (validateDates today startDate endDate) = true <->
   today <= time_value d1 /\ 0 <= n <= 365) /\
  (isValid (validateDates today startDate endDate) = true ->
   calculateTravelDuration startDate endDate = (Some (n + 1), Some n) /\
   trip_days startDate endDate = Some (n + 1) /\
   trip_nights startDate endDate = Some n /\
   1 <= n + 1 <= 366).
Proof.
  intros H1 H2 n.
  pose proof (@days_between_dates _ _ _ _ H1 H2) as Hd. fold n in Hd.
  assert (Hv : isValid (validateDates today startDate endDate) = true <->
               today <= time_value d1 /\ 0 <= n <= 365).
  { pose proof (@parsed_not_empty _ _ H1) as N1.
    pose proof (@parsed_not_empty _ _ H2) as N2.
    unfold validateDates. rewrite Hd. unfold getTime. rewrite H1, H2.
    cbn [option_map time_lt].
    destruct startDate as [| a s]; [congruence | ].
    destruct endDate as [| b e]; [congruence | ].
    subst n. unfold time_value, msPerDay.
    destruct (Z.ltb_spec (MakeDay d1 * 86400000) today);
      [cbn; split; [discriminate | lia] | ].
    destruct (Z.ltb_spec (MakeDay d2 * 86400000) (MakeDay d1 * 86400000));
      [cbn; split; [discriminate | lia] | ].
    destruct (Z.ltb_spec 365 (MakeDay d2 - MakeDay d1));
      cbn; split; try discriminate; lia. }
  split; [exact Hv | ]. intros Ha. apply Hv in Ha as [_ Hn].
  assert (Ht : trip_days startDate endDate = Some (n + 1)).
  { unfold days_between in Hd. unfold trip_days.
    destruct (getTime startDate); [ | discriminate].
    destruct (getTime endDate); [ | discriminate].
    injection Hd as Hd. rewrite <- Hd. reflexivity. }
  split; [ | split; [exact Ht | split; [ | lia]]].
  - pose proof (@parsed_not_empty _ _ H1) as N1.
    pose proof (@parsed_not_empty _ _ H2) as N2.
    unfold calculateTravelDuration. rewrite Hd.
    destruct startDate as [| a s]; [congruence | ].
    destruct endDate as [| b e]; [congruence | ].
    cbn [option_map]. do 2 f_equal. lia.
  - unfold trip_nights. rewrite Ht. cbn [option_map]. f_equal. lia.
Qed.

Lemma accepted_dates_give_a_trip_of_1_to_366_days_witness :
  let today := time_value (Date 2024 3 10) in
  let n := MakeDay (Date 2024 3 17) - MakeDay (Date 2024 3 15) in
  (isValid (validateDates today (lit "2024-03-15") (lit "2024-03-17")) = true <->
   today <= time_value (Date 2024 3 15) /\ 0 <= n <= 365) /\
  (isValid (validateDates today (lit "2024-03-15") (lit "2024-03-17")) = true ->
   calculateTravelDuration (lit "2024-03-15") (lit "2024-03-17")
     = (Some (n + 1), Some n) /\
   trip_days (lit "2024-03-15") (lit "2024-03-17") = Some (n + 1) /\
   trip_nights (lit "2024-03-15") (lit "2024-03-17") = Some n /\
   1 <= n + 1 <= 366).
Proof.
  intros today.
  apply (@accepted_dates_give_a_trip_of_1_to_366_days today
           (lit "2024-03-15") (lit "2024-03-17")
           (Date 2024 3 15) (Date 2024 3 17));
    vm_compute; reflexivity.
Defined.

End FormFacts.

(* ================================================================= *)
(** ** The sign of the mock budget *)

Module BudgetSign.
Import JS JSMath AiService Props FloatFacts.

Open Scope string_scope.
Open Scope list_scope.

(** Rounding to the format keeps the sign it is given. *)
Lemma binary_round_aux_sign sx mx ex lx :
  match binary_round_aux prec emax sx mx ex lx with
  | S754_zero s | S754_infinity s | S754_finite s _ _ => s = sx
  | S754_nan => True
  end.
Proof.
  unfold binary_round_aux.
  destruct (shr_fexp prec emax mx ex lx) as [mrs' e'].
  destruct (shr_fexp prec emax _ e' loc_Exact) as [mrs'' e''].
  destruct (shr_m mrs''); [reflexivity | | exact I].
  destruct (e'' <=? emax - prec)%Z; reflexivity.
Qed.

Lemma SF_value_sign s m e v :
  SF_value (S754_finite s m e) = Some v -> (0 <= v)%Q -> s = false.
Proof.
  destruct s; [ | reflexivity]. unfold SF_value.
  change (signed true m) with (Z.neg m).
  destruct (0 <=? e)%Z eqn:E; intros H Hv; injection H as <-; exfalso.
  - apply Z.leb_le in E.
    assert (0 < 2 ^ e)%Z by (apply Z.pow_pos_nonneg; lia).
    pose proof (Pos2Z.neg_is_neg m).
    assert (Z.neg m * 2 ^ e < 0)%Z by (apply Z.mul_neg_pos; assumption).
    change (0 <= inject_Z (Z.neg m * 2 ^ e))%Q in Hv.
    unfold Qle, inject_Z in Hv. cbn [Qnum Qden] in Hv. lia.
  - pose proof (Pos2Z.neg_is_neg m).
    unfold Qle in Hv. cbn [Qnum Qden] in Hv. lia.
Qed.

Lemma half_up_not_negative m e : (e < 0)%Z -> (0 <= half_up (Z.pos m) e)%Z.
Proof.
  intros He. unfold half_up.
  assert (0 < 2 ^ (- e))%Z by (apply Z.pow_pos_nonneg; lia).
  assert (0 < 2 ^ (1 - e))%Z by (apply Z.pow_pos_nonneg; lia).
  apply Z.div_pos; lia.
Qed.

(** The product of a double that is not negative and a positive
    constant rounds to an integer that is not negative. *)
Lemma round_of_share_not_negative x c mc ec q :
  number_value x = Some q -> (0 <= q)%Q ->
  Prim2SF c = S754_finite false mc ec ->
  forall n, round_int (x * c)%float = Some n -> (0 <= n)%Z.
Proof.
  unfold number_value, round_int. intros Hx Hq Hc n.
  rewrite FloatAxioms.mul_spec, Hc. unfold SF64mul.
  destruct (Prim2SF x) as [s | s | | s m e]; try discriminate Hx.
  - cbn [SFmul]. intros H. injection H as <-. lia.
  - rewrite (SF_value_sign _ _ _ Hx Hq). cbn [SFmul xorb].
    pose proof (binary_round_aux_sign false (Z.pos (m * mc)) (e + ec) loc_Exact)
      as Hs.
    destruct (binary_round_aux prec emax false (Z.pos (m * mc)) (e + ec)
                loc_Exact) as [s' | s' | | s' m' e']; try discriminate.
    + intros H. injection H as <-. lia.
    + subst s'. cbn [signed].
      destruct (0 <=? e')%Z eqn:E; intros H; injection H as <-.
      * apply Z.leb_le in E.
        assert (0 < 2 ^ e')%Z by (apply Z.pow_pos_nonneg; lia).
        change (0 <= Z.pos m' * 2 ^ e')%Z. apply Z.mul_nonneg_nonneg; lia.
      * apply Z.leb_gt in E. change (0 <= half_up (Z.pos m') e')%Z.
        apply half_up_not_negative, E.
Qed.

Lemma share_not_negative x c mc ec q :
  number_value x = Some q -> (0 <= q)%Q ->
  Prim2SF c = S754_finite false mc ec ->
  not_negative (Math_round (x * c)%float).
Proof.
  intros Hx Hq Hc v Hv.
  destruct (round_int (x * c)%float) as [n | ] eqn:Hn.
  - pose proof (round_of_share_not_negative _ _ Hx Hq Hc Hn) as H0.
    destruct (Math_round_value _ Hn) as (v' & Hv' & Heq).
    rewrite Hv in Hv'. injection Hv' as <-. rewrite Heq.
    unfold Qle, inject_Z. cbn. lia.
  - exfalso. unfold round_int in Hn. unfold number_value, Math_round in Hv.
    destruct (Prim2SF (x * c)%float) as [s | s | | s m e] eqn:E;
      try discriminate Hn; try (rewrite E in Hv; discriminate Hv).
    destruct (0 <=? e)%Z; discriminate Hn.
Qed.

(** For a budget that is a finite double and not negative, no part of
    the budget of the mock plan is negative: each of the four is NaN-free
    and at least zero whenever it is finite. *)
Theorem mock_budget_has_no_negative_part travelData q :
  number_value (TravelData.budget travelData) = Some q -> (0 <= q)%Q ->
  exists T A F C,
    plan_budget (generateMockPlan travelData) = Some (T, A, F, C) /\
    not_negative T /\ not_negative A /\ not_negative F /\ not_negative C.
Proof.
  intros Hb Hq. do 4 eexists. split; [reflexivity | ].
  repeat split; eapply share_not_negative; try eassumption;
    vm_compute; reflexivity.
Qed.

Lemma mock_budget_has_no_negative_part_witness :
  exists T A F C,
    plan_budget (generateMockPlan (Samples.trip 9)) = Some (T, A, F, C) /\
    not_negative T /\ not_negative A /\ not_negative F /\ not_negative C.
Proof.
  apply (@mock_budget_has_no_negative_part (Samples.trip 9)
           (5066549580791808 # 562949953421312)%Q);
    [vm_compute; reflexivity | vm_compute; discriminate].
Defined.

End BudgetSign.

(* ================================================================= *)
(** ** The panel: ids and bookmarks *)

Module PanelFacts.
Import JS AiService BudgetOverview Props JSFacts.

Open Scope string_scope.
Open Scope list_scope.

Lemma digits_grow fuel : forall n acc, acc <> [] -> digits fuel n acc <> [].
Proof.
  induction fuel as [| fuel IH]; intros n acc H; cbn; [exact H | ].
  destruct (n <? 10)%N; [discriminate | ]. apply IH. discriminate.
Qed.

Lemma index_key_not_empty i : index_key i <> [].
Proof.
  unfold index_key. cbn [digits].
  destruct (N.of_nat i <? 10)%N; [discriminate | ].
  apply digits_grow. discriminate.
Qed.

Lemma nth_error_map_indexed f l : forall k i,
  nth_error (map_indexed f k l) i = option_map (f (k + i)%nat) (nth_error l i).
Proof.
  induction l as [| x l IH]; intros k i; destruct i as [| i]; cbn;
    try reflexivity.
  - rewrite Nat.add_0_r. reflexivity.
  - rewrite IH. replace (S k + i)%nat with (k + S i)%nat by lia. reflexivity.
Qed.

(** After the panel has numbered a successful answer, every element
    has an [id] that is truthy: its own when that was truthy, and else
    the decimal of its position counted from 1; every other field is as
    it came. *)
Theorem every_shown_recommendation_has_an_id l i rec :
  Forall is_object l ->
  nth_error l i = Some rec ->
  exists out,
    nth_error (map_indexed with_id 0 l) i = Some out /\
    truthy (get (lit "id") out) = true /\
    (truthy (get (lit "id") rec) = true ->
     get (lit "id") out = get (lit "id") rec) /\
    (truthy (get (lit "id") rec) = false ->
     get (lit "id") out = JStr (index_key (i + 1))) /\
    forall key, key <> lit "id" -> get key out = get key rec.
Proof.
  intros _ Hi. exists (with_id i rec).
  split; [rewrite nth_error_map_indexed, Hi; reflexivity | ].
  assert (Hid : get (lit "id") (with_id i rec)
                = js_or (get (lit "id") rec) (JStr (index_key (i + 1)))).
  { unfold with_id, get at 1. cbn [own_fields].
    rewrite lookup_set_prop_same. reflexivity. }
  rewrite Hid. unfold js_or.
  split; [ | split; [ | split]].
  - destruct (truthy (get (lit "id") rec)) eqn:E; [exact E | ].
    cbn [truthy]. pose proof (index_key_not_empty (i + 1)) as Hne.
    destruct (index_key (i + 1)); [congruence | reflexivity].
  - intros ->. reflexivity.
  - intros ->. reflexivity.
  - intros key Hk. unfold with_id, get. cbn [own_fields].
    rewrite lookup_set_prop_other by exact Hk. reflexivity.
Qed.

Lemma every_shown_recommendation_has_an_id_witness :
  let first := JObj [(lit "name", JStr (lit "A")); (lit "id", JStr (lit "x7"))] in
  let second := JObj [(lit "name", JStr (lit "B"))] in
  exists out,
    nth_error (map_indexed with_id 0 [first; second]) 1 = Some out /\
    truthy (get (lit "id") out) = true /\
    (truthy (get (lit "id") second) = true ->
     get (lit "id") out = get (lit "id") second) /\
    (truthy (get (lit "id") second) = false ->
     get (lit "id") out = JStr (index_key (1 + 1))) /\
    forall key, key <> lit "id" -> get key out = get key second.
Proof.
  intros first second.
  apply (@every_shown_recommendation_has_an_id [first; second] 1 second);
    [ | reflexivity].
  repeat constructor; eexists; reflexivity.
Defined.

Lemma set_prop_twice k v1 v2 fields :
  set_prop k v2 (set_prop k v1 fields) = set_prop k v2 fields.
Proof.
  assert (Hk : jsstring_eqb k k = true) by (apply jsstring_eqb_eq; reflexivity).
  induction fields as [| [k' v'] rest IH]; cbn.
  - rewrite Hk. reflexivity.
  - destruct (jsstring_eqb k' k) eqn:E; cbn.
    + rewrite Hk. reflexivity.
    + rewrite E, IH. reflexivity.
Qed.

Lemma set_prop_same_value k v fields :
  lookup k fields = Some v -> set_prop k v fields = fields.
Proof.
  induction fields as [| [k' v'] rest IH]; cbn; [discriminate | ].
  destruct (jsstring_eqb k' k) eqn:E.
  - intros H. injection H as ->. apply jsstring_eqb_eq in E. subst k'.
    reflexivity.
  - intros H. rewrite (IH H). reflexivity.
Qed.

(** Toggling a bookmark twice gives back the list as it was, when
    the flag of each element is a boolean; so the second click undoes the
    first on every element it touched. *)
Theorem toggling_twice_restores_the_list id l :
  Forall has_bookmark_flag l ->
  toggleBookmark id (toggleBookmark id l) = l.
Proof.
  intros H. unfold toggleBookmark. rewrite map_map.
  induction H as [| rec l (fields & b & -> & Hb) _ IH]; [reflexivity | ].
  cbn [map]. rewrite IH. f_equal. cbn [own_fields].
  destruct (strict_eq_string (get (lit "id") (JObj fields)) id) eqn:E.
  - assert (Hid : get (lit "id")
                    (JObj (set_prop (lit "isBookmarked")
                             (JBool (negb (truthy (get (lit "isBookmarked")
                                                     (JObj fields)))))
                             fields))
                  = get (lit "id") (JObj fields)).
    { unfold get. cbn [own_fields]. rewrite lookup_set_prop_other;
        [reflexivity | apply jsstring_eqb_neq; reflexivity]. }
    rewrite Hid, E. cbn [own_fields]. rewrite set_prop_twice.
    unfold get at 1. cbn [own_fields]. rewrite lookup_set_prop_same.
    unfold get. cbn [own_fields]. rewrite Hb. cbn [truthy].
    rewrite negb_involutive. f_equal. apply set_prop_same_value, Hb.
  - rewrite E. reflexivity.
Qed.

Lemma toggling_twice_restores_the_list_witness :
  let l := [JObj [(lit "id", JStr (lit "1")); (lit "isBookmarked", JBool false)];
            JObj [(lit "id", JStr (lit "2")); (lit "isBookmarked", JBool true)]] in
  toggleBookmark (lit "2") (toggleBookmark (lit "2") l) = l.
Proof.
  intros l. apply (@toggling_twice_restores_the_list (lit "2") l).
  repeat constructor; do 2 eexists; (split; [reflexivity | reflexivity]).
Defined.

(** One toggle keeps the length of the list and, position by position,
    touches only the elements with that [id], and of those only
    [isBookmarked], which becomes the negation of what it was (a missing
    flag counts as false). *)
Theorem toggle_changes_only_the_flag_of_that_id id l i rec :
  Forall is_object l ->
  nth_error l i = Some rec ->
  length (toggleBookmark id l) = length l /\
  exists out,
    nth_error (toggleBookmark id l) i = Some out /\
    (get (lit "id") rec <> JStr id -> out = rec) /\
    (get (lit "id") rec = JStr id ->
     get (lit "isBookmarked") out
       = JBool (negb (truthy (get (lit "isBookmarked") rec))) /\
     forall key, key <> lit "isBookmarked" -> get key out = get key rec).
Proof.
  intros _ Hi. unfold toggleBookmark. split; [apply length_map | ].
  rewrite nth_error_map, Hi. cbn [option_map]. eexists. split; [reflexivity | ].
  split.
  - intros Hne.
    destruct (strict_eq_string (get (lit "id") rec) id) eqn:E; [ | reflexivity].
    exfalso. apply Hne. unfold strict_eq_string in E.
    destruct (get (lit "id") rec); try discriminate.
    apply jsstring_eqb_eq in E. subst. reflexivity.
  - intros He. rewrite He. cbn [strict_eq_string].
    assert (Hk : jsstring_eqb id id = true) by (apply jsstring_eqb_eq; reflexivity).
    rewrite Hk. split.
    + unfold get at 1. cbn [own_fields]. rewrite lookup_set_prop_same.
      reflexivity.
    + intros key Hne. unfold get. cbn [own_fields].
      rewrite lookup_set_prop_other by exact Hne. reflexivity.
Qed.

Lemma toggle_changes_only_the_flag_of_that_id_witness :
  let rec := JObj [(lit "id", JStr (lit "2")); (lit "name", JStr (lit "B"))] in
  length (toggleBookmark (lit "2") [rec]) = length [rec] /\
  exists out,
    nth_error (toggleBookmark (lit "2") [rec]) 0 = Some out /\
    (get (lit "id") rec <> JStr (lit "2") -> out = rec) /\
    (get (lit "id") rec = JStr (lit "2") ->
     get (lit "isBookmarked") out
       = JBool (negb (truthy (get (lit "isBookmarked") rec))) /\
     forall key, key <> lit "isBookmarked" -> get key out = get key rec).
Proof.
  intros rec.
  apply (@toggle_changes_only_the_flag_of_that_id (lit "2") [rec] 0 rec);
    [ | reflexivity].
  repeat constructor. eexists. reflexivity.
Defined.

End PanelFacts.

(* ================================================================= *)
(** ** The image rule, in words *)

Module ImageRule.
Import JS AiService Props.

(** [isValidImage] answers true exactly on a string that starts with
    [https://], ends with a dot, one of the extensions jpg, jpeg, png,
    webp, gif, bmp, svg in either case and an optional query string
    without a line terminator, and has from 15 to 300 code units; on any
    value that is not a string it answers false. *)
Theorem isValidImage_accepts_exactly v :
  (isValidImage v = true <-> valid_image v) /\
  ((forall u, v <> JStr u) -> isValidImage v = false).
Proof.
  split; [apply ImageFacts.isValidImage_iff | ].
  intros H. destruct v; try reflexivity. exfalso. eapply H. reflexivity.
Qed.

End ImageRule.
